(** * client-ts: query builder, pagination, branch resolution and hydration

    A shallow embedding of the core of the database client SDK:
    - [Legacy]: the first client ([packages/client/src/client.ts], second
      part): record hydration ([BaseClient.initObject]), branch resolution
      ([BaseClient.getBranch]), the REST repository ([create], [read]) and
      the [Page] / [Query] pagination protocol;
    - [Client]: the plugin based client ([buildClient], [#evaluateBranch]);
    - [Schema]: the immutable query builder of [schema/query.ts], its
      cache key and its iterators.

    JavaScript objects are ordered lists of properties; objects that the
    code mutates after they have been shared live in an explicit store. *)

From Stdlib Require Import ZArith Lia Ascii String DecimalString.
From stdpp Require Import base option list strings gmap.

Set Warnings "-register-all".

Local Open Scope string_scope.
Local Open Scope Z_scope.
Local Open Scope list_scope.

(** ** Outcome of a computation that may throw *)

Inductive Error : Type :=
| TypeError                      (* property access on undefined / null, calling a non function *)
| JsError (message : string)     (* [throw new Error(message)] *)
| TransportError (status : Z).   (* the fetcher rejected *)

Inductive Outcome (A : Type) : Type :=
| Ok (a : A)
| Throw (e : Error).
Arguments Ok {A} a.
Arguments Throw {A} e.

(** Asynchronous methods: state passing over a world [S], with
    exceptions; every [await] is a bind. *)
Definition Run (S A : Type) : Type := S -> Outcome A * S.

Definition ret {S A} (a : A) : Run S A := fun w => (Ok a, w).
Definition throw {S A} (e : Error) : Run S A := fun w => (Throw e, w).
Definition bind {S A B} (k : A -> Run S B) (m : Run S A) : Run S B :=
  fun w => match m w with
           | (Ok a, w') => k a w'
           | (Throw e, w') => (Throw e, w')
           end.

#[global] Instance Run_ret S : MRet (Run S) := @ret S.
#[global] Instance Run_bind S : MBind (Run S) := @bind S.

Module Legacy.

(** ** Values

    Raw rows are JSON values; hydrated records additionally carry bound
    methods, which are closures over the owning table and the record id.
    Every property has an [enumerable] flag ([Object.defineProperty]) and
    every object a [frozen] flag ([Object.freeze]). *)

Inductive Method : Type := MRead | MUpdate | MDelete | MGet.

Inductive Val : Type :=
| VUndef
| VNull
| VBool (b : bool)
| VNum (n : Z)
| VStr (s : string)
| VArr (elems : list Val)
| VObj (frozen : bool) (props : list (string * (Val * bool)))
| VFun (m : Method) (table : string) (id : Val).

Definition Props : Type := list (string * (Val * bool)).

(** Structural induction through the lists of entries and properties. *)
Section ValInduction.
Variable P : Val -> Prop.
Hypothesis Hundef : P VUndef.
Hypothesis Hnull : P VNull.
Hypothesis Hbool : forall b, P (VBool b).
Hypothesis Hnum : forall n, P (VNum n).
Hypothesis Hstr : forall s, P (VStr s).
Hypothesis Harr : forall l, Forall P l -> P (VArr l).
Hypothesis Hobj : forall f ps, Forall (fun p => P (fst (snd p))) ps -> P (VObj f ps).
Hypothesis Hfun : forall m t id, P id -> P (VFun m t id).

Fixpoint Val_nested_ind (v : Val) : P v :=
  match v with
  | VUndef => Hundef
  | VNull => Hnull
  | VBool b => Hbool b
  | VNum n => Hnum n
  | VStr s => Hstr s
  | VArr l =>
      Harr l ((fix go (l : list Val) : Forall P l :=
                 match l with
                 | [] => Forall_nil_2 _
                 | x :: l' => Forall_cons_2 _ _ _ (Val_nested_ind x) (go l')
                 end) l)
  | VObj f ps =>
      Hobj f ps ((fix go (ps : Props) : Forall (fun p => P (fst (snd p))) ps :=
                    match ps with
                    | [] => Forall_nil_2 _
                    | p :: ps' =>
                        Forall_cons_2 (fun p => P (fst (snd p))) p ps'
                          (Val_nested_ind (fst (snd p))) (go ps')
                    end) ps)
  | VFun m t id => Hfun m t id (Val_nested_ind id)
  end.
End ValInduction.

(** Truthiness of a JavaScript value. *)
Definition truthy (v : Val) : bool :=
  match v with
  | VUndef | VNull => false
  | VBool b => b
  | VNum n => negb (n =? 0)
  | VStr s => negb (String.eqb s "")
  | VArr _ | VObj _ _ | VFun _ _ _ => true
  end.

(** [typeof v === 'object'] *)
Definition typeofObject (v : Val) : bool :=
  match v with
  | VNull | VArr _ | VObj _ _ => true
  | _ => false
  end.

(** The index properties ["0"], ["1"], ... of an array, counted from [i]. *)
Fixpoint indexProps (i : nat) (l : list Val) : Props :=
  match l with
  | [] => []
  | v :: l' =>
      (NilZero.string_of_uint (Nat.to_uint i), (v, true)) :: indexProps (S i) l'
  end.

(** The own properties of a value: those of an object, the entries of an
    array; the other values have none that the code reads. *)
Definition ownProps (v : Val) : Props :=
  match v with
  | VObj _ ps => ps
  | VArr l => indexProps 0 l
  | _ => []
  end.

Fixpoint lookupProp (ps : Props) (k : string) : option (Val * bool) :=
  match ps with
  | [] => None
  | (k', p) :: ps' => if String.eqb k' k then Some p else lookupProp ps' k
  end.

(** [o[k]] on an own-property list: [undefined] when the key is absent. *)
Definition getProp (ps : Props) (k : string) : Val :=
  match lookupProp ps k with
  | Some (v, _) => v
  | None => VUndef
  end.

(** [o[k] = v]: overwrite in place when the key exists (its position and
    flag are kept), append a fresh enumerable property otherwise. *)
Fixpoint setProp (ps : Props) (k : string) (v : Val) : Props :=
  match ps with
  | [] => [(k, (v, true))]
  | (k', (v', e)) :: ps' =>
      if String.eqb k' k then (k', (v, e)) :: ps'
      else (k', (v', e)) :: setProp ps' k v
  end.

(** [Object.defineProperty(o, k, { enumerable: false })] on an existing key. *)
Fixpoint hideProp (ps : Props) (k : string) : Props :=
  match ps with
  | [] => []
  | (k', (v', e)) :: ps' =>
      if String.eqb k' k then (k', (v', false)) :: ps'
      else (k', (v', e)) :: hideProp ps' k
  end.

(** The enumerable properties, in property order. *)
Fixpoint enumerable (ps : Props) : Props :=
  match ps with
  | [] => []
  | (k, (v, e)) :: ps' =>
      if e then (k, (v, true)) :: enumerable ps' else enumerable ps'
  end.

(** [Object.keys(v)]: the enumerable own keys. *)
Definition objectKeys (v : Val) : list string :=
  map fst (enumerable (ownProps v)).

(** [value.id]-style read: own properties, enumerable or not. *)
Definition member (v : Val) (k : string) : Val := getProp (ownProps v) k.

(** [Object.assign({}, object)]: a fresh object with the enumerable own
    properties of [object]; [null] and [undefined] sources copy nothing
    (a string source is excluded by the parameter type [object]). *)
Definition assignFrom (object : Val) : Props :=
  enumerable (ownProps object).

(** [arr.find(pred)] *)
Fixpoint jsFind {A} (pred : A -> bool) (l : list A) : option A :=
  match l with
  | [] => None
  | x :: l' => if pred x then Some x else jsFind pred l'
  end.

(** ** Record hydration: [BaseClient.initObject] *)

(** [Links = Record<string, Array<string[]>>]; each entry is the pair
    [[field, linkTable]] that the loop destructures. *)
Definition Links : Type := gmap string (list (string * string)).

(** Which arm of the link conditional fires for the value of a link field. *)
Inductive LinkAction : Type :=
| Embedded            (* [o[field] = this.initObject(linkTable, value)] *)
| LinkRef (id : Val)  (* [o[field] = { id, get }] *)
| Untouched.

Definition linkAction (value : Val) : LinkAction :=
  if truthy value && typeofObject value then
    let id := member value "id" in
    match jsFind (fun col => String.eqb col "id") (objectKeys value) with
    | Some _ => Embedded
    | None => if truthy id then LinkRef id else Untouched
    end
  else Untouched.

Definition linkRef (linkTable : string) (id : Val) : Val :=
  VObj false [("id", (id, true)); ("get", (VFun MGet linkTable id, true))].

(** The part of [initObject] after the link loop: bind [read], [update]
    and [delete] (closures over [table] and [o['id']]), make them non
    enumerable, freeze. *)
Definition bindMethods (table : string) (o : Props) : Val :=
  let o := setProp o "read" (VFun MRead table (getProp o "id")) in
  let o := setProp o "update" (VFun MUpdate table (getProp o "id")) in
  let o := setProp o "delete" (VFun MDelete table (getProp o "id")) in
  let o := hideProp o "read" in
  let o := hideProp o "update" in
  let o := hideProp o "delete" in
  VObj true o.

Section InitObject.
Variable links : Links.

(** One iteration of [for (const link of tableLinks)], given the
    recursive call. *)
Definition initLink (rec : string -> Val -> option Val)
    (o : Props) (link : string * string) : option Props :=
  let '(field, linkTable) := link in
  let value := getProp o field in
  match linkAction value with
  | Embedded => r ← rec linkTable value; Some (setProp o field r)
  | LinkRef id => Some (setProp o field (linkRef linkTable id))
  | Untouched => Some o
  end.

Fixpoint initLinks (rec : string -> Val -> option Val)
    (o : Props) (tableLinks : list (string * string)) : option Props :=
  match tableLinks with
  | [] => Some o
  | link :: rest => o' ← initLink rec o link; initLinks rec o' rest
  end.

(** [initObject(table, object)]; the fuel bounds the nesting of the
    recursive calls (see [initObject_total]). *)
Fixpoint initObject (fuel : nat) (table : string) (object : Val) : option Val :=
  match fuel with
  | O => None
  | S fuel' =>
      let o := assignFrom object in
      let tableLinks := default [] (links !! table) in
      o' ← initLinks (initObject fuel') o tableLinks;
      Some (bindMethods table o')
  end.
End InitObject.

(** Nesting depth of objects and arrays; closures are leaves. *)
Fixpoint depth (v : Val) : nat :=
  match v with
  | VArr l => S (list_max (map depth l))
  | VObj _ ps => S (list_max (map (fun p => depth (fst (snd p))) ps))
  | _ => O
  end.

(** [initObject] with the fuel the row needs. *)
Definition hydrate (links : Links) (table : string) (object : Val) : Val :=
  default VUndef (initObject links (S (depth object)) table object).



(** An own [id] property, when there is one, is enumerable. *)
Definition idVisible (ps : Props) : bool :=
  match lookupProp ps "id" with
  | Some (_, e) => e
  | None => true
  end.



Definition depthProps (ps : Props) : nat :=
  list_max (map (fun p => depth (fst (snd p))) ps).


(** [typeof v === 'function'] *)
Definition callable (v : Val) : bool :=
  match v with VFun _ _ _ => true | _ => false end.

Definition row1 : Val :=
  VObj false [("id", (VStr "1", true));
              ("xata", (VObj false [("version", (VNum 0, true))], true));
              ("author", (VObj false [("id", (VStr "a1", true))], true))].

Definition links1 : Links := {[ "users" := [("author", "authors")] ]}.

(** ** The world a client runs in *)

(** [BranchStrategyValue = string | undefined | null] *)
Inductive BranchStrategyValue : Type :=
| BUndefined
| BNull
| BString (s : string).

(** The sources a branch builder reads (environment, configuration). *)
Definition Env : Type := gmap string string.

(** [BranchStrategy = BranchStrategyValue | BranchStrategyBuilder] *)
Inductive BranchStrategy : Type :=
| Literal (v : BranchStrategyValue)
| Builder (f : Env -> Outcome BranchStrategyValue).

(** [BranchStrategyOption = NonNullable<BranchStrategy | BranchStrategy[]>] *)
Inductive BranchStrategyOption : Type :=
| Single (s : BranchStrategy)
| Several (l : list BranchStrategy).

Definition branchTruthy (v : BranchStrategyValue) : bool :=
  match v with
  | BString s => negb (String.eqb s "")
  | _ => false
  end.

Definition branchName (v : BranchStrategyValue) : string :=
  match v with BString s => s | _ => "" end.

(** [{ size, offset, first, last, after, before }] as built by the page
    navigation methods; an absent key is [VUndef]. *)
Record PaginationOptions : Type := {
  size : Val; offset : Val;
  first : Val; last : Val; after : Val; before : Val
}.

Inductive SortDirection : Type := Asc | Desc.

(** ** The first [Query] class and its pages *)

Inductive Query : Type :=
  mkQuery (table : string)
          (any all not none : option (list QueryOrConstraint))
          (sort : option (list (string * SortDirection)))
with QueryOrConstraint : Type :=
| SubQuery (q : Query)
| Constraint (c : Val).

Definition queryTableName (q : Query) : string :=
  match q with mkQuery t _ _ _ _ _ => t end.
Definition querySort (q : Query) : option (list (string * SortDirection)) :=
  match q with mkQuery _ _ _ _ _ s => s end.

(** [compactObject({ $any, $all, $not, $none })]: the defined entries. *)
Definition compactFilter (q : Query) : list (string * list QueryOrConstraint) :=
  match q with
  | mkQuery _ a b c d _ =>
      omap (fun kv => v ← snd kv; Some (fst kv, v))
           [("$any", a); ("$all", b); ("$not", c); ("$none", d)]
  end.

(** Modelled from the spec: the generated API functions ([./api]) and the
    fetcher behind them are the transport collaborator,
    [request(method, url, params, body) -> JSON | throws]; a request is
    recorded with its path parameters and body. *)
Inductive Request : Type :=
| InsertRecord (workspace dbBranchName tableName : string) (body : Val)
| GetRecord (workspace dbBranchName tableName : string) (recordId : Val)
| QueryTable (workspace dbBranchName tableName : string)
    (filter : list (string * list QueryOrConstraint))
    (sort : option (list (string * SortDirection)))
    (page : option PaginationOptions).

Record World : Type := {
  env : Env;                       (* what the branch builders read *)
  memo : BranchStrategyValue;      (* the client's private [branch] field *)
  builderCalls : list nat;         (* positions of the builders invoked so far *)
  requests : list Request;         (* requests handed to the transport so far *)
  responses : list (Outcome Val)   (* the answers the transport will give *)
}.

(** Asynchronous methods run over the world. *)
Abbreviation M := (Run World).

(** One round trip, the transport being scripted by the world: the
    request is recorded and the next answer consumed; a transport
    without an answer left rejects. *)
Definition request (r : Request) : M Val :=
  fun w =>
    let w' := {| env := env w; memo := memo w; builderCalls := builderCalls w;
                 requests := requests w ++ [r];
                 responses := tail (responses w) |} in
    match responses w with
    | [] => (Throw (TransportError 0), w')
    | a :: _ => (a, w')
    end.

(** [v.k] as an expression: reading a property of [undefined] or [null]
    throws. *)
Definition field (v : Val) (k : string) : M Val :=
  match v with
  | VUndef | VNull => throw TypeError
  | _ => ret (member v k)
  end.

(** ** [BaseClient] *)

Record XataClientOptions : Type := {
  databaseURL : option string;
  branch : BranchStrategyOption;
  apiKey : string
}.

Record BaseClient : Type := {
  options : XataClientOptions;
  links : Links
}.

Definition optionTruthy (o : BranchStrategyOption) : bool :=
  match o with
  | Single (Literal v) => branchTruthy v
  | Single (Builder _) | Several _ => true
  end.

(** [new BaseClient(options, links)] *)
Definition newBaseClient (o : XataClientOptions) (l : Links) : Outcome BaseClient :=
  if negb (bool_decide (is_Some (databaseURL o)) &&
           negb (String.eqb (default "" (databaseURL o)) ""))
     || String.eqb (apiKey o) "" || negb (optionTruthy (branch o))
  then Throw (JsError "Options databaseURL, apiKey and branch are required")
  else Ok {| options := o; links := l |}.

(** [isBranchStrategyBuilder(strategy) ? await strategy() : strategy];
    [i] is the position of the strategy, recorded when a builder runs. *)
Definition evaluateBranch (i : nat) (strategy : BranchStrategy) : M BranchStrategyValue :=
  match strategy with
  | Literal v => ret v
  | Builder f =>
      fun w => (f (env w),
                {| env := env w; memo := memo w;
                   builderCalls := builderCalls w ++ [i];
                   requests := requests w; responses := responses w |})
  end.

Definition setBranch (b : BranchStrategyValue) : M unit :=
  fun w => (Ok tt, {| env := env w; memo := b; builderCalls := builderCalls w;
                      requests := requests w; responses := responses w |}).

(** The [for await] loop of [getBranch] and the [throw] after it. *)
Fixpoint resolveFrom (i : nat) (strategies : list BranchStrategy) : M string :=
  match strategies with
  | [] => throw (JsError "Unable to resolve branch value")
  | strategy :: rest =>
      b ← evaluateBranch i strategy;
      if branchTruthy b then _ ← setBranch b; ret (branchName b)
      else resolveFrom (S i) rest
  end.

Definition strategiesOf (param : BranchStrategyOption) : list BranchStrategy :=
  match param with
  | Several l => l
  | Single s => [s]
  end.

(** [BaseClient.getBranch] *)
Definition getBranch (c : BaseClient) : M string :=
  fun w =>
    if branchTruthy (memo w) then (Ok (branchName (memo w)), w)
    else resolveFrom 0 (strategiesOf (branch (options c))) w.

(** What a strategy evaluates to when the sources read [e]. *)
Definition evaluatesTo (e : Env) (strategy : BranchStrategy)
    : Outcome BranchStrategyValue :=
  match strategy with
  | Literal v => Ok v
  | Builder f => f e
  end.

(** The strategy yields an empty (falsy) value. *)
Definition yieldsEmpty (e : Env) (strategy : BranchStrategy) : bool :=
  match evaluatesTo e strategy with
  | Ok v => negb (branchTruthy v)
  | Throw _ => false
  end.

(** The positions, counted from [i], of the builders of a strategy list. *)
Fixpoint builderPositions (i : nat) (strategies : list BranchStrategy) : list nat :=
  match strategies with
  | [] => []
  | Literal _ :: rest => builderPositions (S i) rest
  | Builder _ :: rest => i :: builderPositions (S i) rest
  end.

(** The world after a resolution that ran the builders at [calls] and
    left [b] in the client's [branch] field. *)
Definition afterResolution (calls : list nat) (b : BranchStrategyValue)
    (w : World) : World :=
  {| env := env w; memo := b; builderCalls := builderCalls w ++ calls;
     requests := requests w; responses := responses w |}.

(** [[undefined, "", resolverReturning("main")]] *)
Definition strategies1 : list BranchStrategy :=
  [Literal BUndefined; Literal (BString ""); Builder (fun _ => Ok (BString "main"))].

Section Repository.
(** The capture groups 1 and 2 of [workspaceAndDatabaseRegex.exec(url)],
    [None] when the URL does not match. *)
Variable regexExec : string -> option (string * string).

Definition getWorkspaceId (c : BaseClient) : M string :=
  match regexExec (default "" (databaseURL (options c))) with
  | Some (workspace, _) =>
      if String.eqb workspace ""
      then throw (JsError "XATA_DATABASE_URL does not have a valid workspace")
      else ret workspace
  | None => throw (JsError "XATA_DATABASE_URL does not have a valid workspace")
  end.

Definition getDatabaseId (c : BaseClient) : M string :=
  match regexExec (default "" (databaseURL (options c))) with
  | Some (_, database) =>
      if String.eqb database ""
      then throw (JsError "XATA_DATABASE_URL does not have a valid workspace")
      else ret database
  | None => throw (JsError "XATA_DATABASE_URL does not have a valid workspace")
  end.

(** [typeof v === 'string'] *)
Definition isString (v : Val) : bool :=
  match v with VStr _ => true | _ => false end.

(** [transformObjectLinks]: a linked record is sent as its id. *)
Definition transformObjectLinks (object : Val) : Val :=
  VObj false
    (map (fun p =>
            let value := fst (snd p) in
            if truthy value && typeofObject value && isString (member value "id")
            then (fst p, (member value "id", true))
            else (fst p, (value, true)))
         (enumerable (ownProps object))).

(** [RestRepository.read] *)
Definition read (c : BaseClient) (table : string) (recordId : Val) : M Val :=
  workspace ← getWorkspaceId c;
  branch ← getBranch c;
  response ← request (GetRecord workspace branch table recordId);
  ret (hydrate (links c) table response).

(** [RestRepository.create] *)
Definition create (c : BaseClient) (table : string) (object : Val) : M Val :=
  workspace ← getWorkspaceId c;
  branch ← getBranch c;
  let record := transformObjectLinks object in
  response ← request (InsertRecord workspace branch table record);
  id ← field response "id";
  finalObject ← read c table id;
  if negb (truthy finalObject)
  then throw (JsError "The server failed to save the record")
  else ret finalObject.

(** ** [Page] and the pagination of the first [Query] *)

Record Page : Type := {
  query : Query;
  meta : Val;
  records : list Val
}.

Definition arrayElems (v : Val) : M (list Val) :=
  match v with
  | VArr l => ret l
  | _ => throw TypeError
  end.

(** [Query.getPaginated(options)] *)
Definition getPaginated (c : BaseClient) (q : Query)
    (page : option PaginationOptions) : M Page :=
  let filter := compactFilter q in
  workspace ← getWorkspaceId c;
  database ← getDatabaseId c;
  branch ← getBranch c;
  response ← request (QueryTable workspace branch (queryTableName q)
                        filter (querySort q) page);
  meta ← field response "meta";
  objects ← field response "records";
  objects ← arrayElems objects;
  let records := map (hydrate (links c) (queryTableName q)) objects in
  ret {| query := q; meta := meta; records := records |}.

(** [{ page: { cursor, more } }] *)
Definition metaOf (cursor : string) (more : bool) : Val :=
  VObj false [("page", (VObj false [("cursor", (VStr cursor, true));
                                    ("more", (VBool more, true))], true))].

(** [this.meta.page.cursor] *)
Definition pageCursor (meta : Val) : M Val :=
  page ← field meta "page"; field page "cursor".

Definition noPage (size offset : Val) : PaginationOptions :=
  {| size := size; offset := offset; first := VUndef; last := VUndef;
     after := VUndef; before := VUndef |}.

(** [Page.nextPage], [Page.previousPage], [Page.firstPage], [Page.lastPage] *)
Definition Page_nextPage (c : BaseClient) (p : Page) (size offset : Val) : M Page :=
  cursor ← pageCursor (meta p);
  getPaginated c (query p)
    (Some {| size := size; offset := offset; first := VUndef; last := VUndef;
             after := cursor; before := VUndef |}).

Definition Page_previousPage (c : BaseClient) (p : Page) (size offset : Val) : M Page :=
  cursor ← pageCursor (meta p);
  getPaginated c (query p)
    (Some {| size := size; offset := offset; first := VUndef; last := VUndef;
             after := VUndef; before := cursor |}).

Definition Page_firstPage (c : BaseClient) (p : Page) (size offset : Val) : M Page :=
  cursor ← pageCursor (meta p);
  getPaginated c (query p)
    (Some {| size := size; offset := offset; first := cursor; last := VUndef;
             after := VUndef; before := VUndef |}).

Definition Page_lastPage (c : BaseClient) (p : Page) (size offset : Val) : M Page :=
  cursor ← pageCursor (meta p);
  getPaginated c (query p)
    (Some {| size := size; offset := offset; first := VUndef; last := cursor;
             after := VUndef; before := VUndef |}).

(** [Page.hasNextPage]: [this.meta.page.more] *)
Definition Page_hasNextPage (p : Page) : M Val :=
  page ← field (meta p) "page"; field page "more".

(** A [Query] is itself a [BasePage]: [meta = { page: { cursor: 'start',
    more: true } }], [records = []]. *)
Definition Query_meta : Val := metaOf "start" true.

(** [Query.firstPage], [Query.nextPage], [Query.previousPage], [Query.lastPage] *)
Definition Query_firstPage (c : BaseClient) (q : Query) (size offset : Val) : M Page :=
  getPaginated c q (Some (noPage size offset)).

Definition Query_nextPage (c : BaseClient) (q : Query) (size offset : Val) : M Page :=
  Query_firstPage c q size offset.

Definition Query_previousPage (c : BaseClient) (q : Query) (size offset : Val) : M Page :=
  Query_firstPage c q size offset.

Definition Query_lastPage (c : BaseClient) (q : Query) (size offset : Val) : M Page :=
  getPaginated c q
    (Some {| size := size; offset := offset; first := VUndef; last := VUndef;
             after := VUndef; before := VStr "end" |}).
End Repository.

(** A client on [https://ws.xata.sh/db/app], a world in which its branch
    is resolved, and what the regular expression captures on that URL. *)
Definition options1 : XataClientOptions :=
  {| databaseURL := Some "https://ws.xata.sh/db/app";
     branch := Several strategies1;
     apiKey := "key" |}.

Definition client1 : BaseClient := {| options := options1; links := links1 |}.

(** The same client with strategies that all come up empty. *)
Definition client2 : BaseClient :=
  {| options := {| databaseURL := Some "https://ws.xata.sh/db/app";
                   branch := Several [Literal BNull; Builder (fun _ => Ok (BString ""))];
                   apiKey := "key" |};
     links := links1 |}.

Definition regexExec1 (url : string) : option (string * string) :=
  if String.eqb url "https://ws.xata.sh/db/app" then Some ("ws", "app") else None.

Definition world1 (answers : list (Outcome Val)) : World :=
  {| env := ∅; memo := BUndefined; builderCalls := [];
     requests := []; responses := answers |}.

(** What [getPaginated] resolves to and the world it leaves, when the
    workspace is [ws], the branch [br], the world after branch resolution
    [w1] and the transport answers an object with properties [ps] whose
    [records] are [objs]; [page] is what the request carries. *)
Definition answered (c : BaseClient) (ws br : string) (w1 : World)
    (ps : Props) (objs : list Val) (tl : list (Outcome Val))
    (q : Query) (page : option PaginationOptions) : Outcome Page * World :=
  (Ok {| query := q; meta := getProp ps "meta";
         records := map (hydrate (links c) (queryTableName q)) objs |},
   {| env := env w1; memo := memo w1; builderCalls := builderCalls w1;
      requests := requests w1 ++
                  [QueryTable ws br (queryTableName q) (compactFilter q) (querySort q) page];
      responses := tl |}).

(** A page of [users] that reports [more = false], and an answer of the
    transport that carries one record. *)
Definition usersQuery : Query := mkQuery "users" None None None None None.

Definition lastPage1 : Page :=
  {| query := usersQuery; meta := metaOf "c1" false; records := [] |}.

Definition answer1 : Val :=
  VObj false [("meta", (metaOf "c2" true, true));
              ("records", (VArr [VObj false [("id", (VStr "r1", true))]], true))].

End Legacy.

(** ** The plugin based client: [buildClient] *)

Module Client.
Import Legacy.

(** [BaseClientOptions.branch?: BranchStrategyOption] *)
Record BaseClientOptions : Type := {
  branch : option BranchStrategyOption
}.

Section BuildClient.
(** [getCurrentBranchName] ([util/config]) reads the environment and the
    git state; it is taken as given. *)
Variable getCurrentBranchName : Env -> Outcome BranchStrategyValue.

(** The [for await] loop of [#evaluateBranch]; falling off the end
    returns [undefined]. *)
Fixpoint evaluateFrom (i : nat) (strategies : list BranchStrategy)
    : M BranchStrategyValue :=
  match strategies with
  | [] => ret BUndefined
  | strategy :: rest =>
      b ← Legacy.evaluateBranch i strategy;
      if branchTruthy b then _ ← setBranch b; ret b
      else evaluateFrom (S i) rest
  end.

(** [#evaluateBranch(param)] for a caller supplied strategy option. *)
Definition evaluateBranch (param : option BranchStrategyOption)
    : M BranchStrategyValue :=
  fun w =>
    if branchTruthy (memo w) then (Ok (memo w), w)
    else match param with
         | None => (Ok BUndefined, w)
         | Some p =>
             if optionTruthy p then evaluateFrom 0 (strategiesOf p) w
             else (Ok BUndefined, w)
         end.

(** The [branch] thunk that [#parseOptions] builds; running it is not
    recorded in the trace, only the caller's builders are. *)
Definition branchThunk (options : BaseClientOptions) : M BranchStrategyValue :=
  match branch options with
  | Some p =>
      if optionTruthy p then evaluateBranch (Some p)
      else fun w => (getCurrentBranchName (env w), w)
  | None => fun w => (getCurrentBranchName (env w), w)
  end.

(** [#evaluateBranch(branch)] on that thunk, as [#getFetchProps] calls
    it: the thunk is the only strategy. *)
Definition evaluateThunk (options : BaseClientOptions) : M BranchStrategyValue :=
  fun w =>
    if branchTruthy (memo w) then (Ok (memo w), w)
    else (b ← branchThunk options;
          if branchTruthy b then _ ← setBranch b; ret b
          else ret BUndefined) w.

(** [#getFetchProps]: the branch value every request is built from. *)
Definition getFetchProps (options : BaseClientOptions) : M string :=
  branchValue ← evaluateThunk options;
  if negb (branchTruthy branchValue)
  then throw (JsError "Unable to resolve branch value")
  else ret (branchName branchValue).
End BuildClient.

End Client.

(** ** The query builder: [schema/query.ts] *)

Module Schema.

(** *** Values and the store

    Filter objects are created by one [Query], referenced from the
    [$any] / [$all] / [$not] / [$none] arrays of others and written to by
    the constructor, so they live in a store and are referred to by
    address.  Arrays and the constraint literals [{ [column]: value }]
    are never written to and are plain values. *)

Abbreviation loc := nat.

Inductive Val : Type :=
| VUndef
| VNull
| VBool (b : bool)
| VNum (n : Z)            (* integral numbers *)
| VStr (s : string)
| VArr (elems : list Val)
| VObj (props : list (string * Val))
| VRef (l : loc).

(** Structural induction through the lists of entries and properties. *)
Section ValInduction.
Variable P : Val -> Prop.
Hypothesis Hundef : P VUndef.
Hypothesis Hnull : P VNull.
Hypothesis Hbool : forall b, P (VBool b).
Hypothesis Hnum : forall n, P (VNum n).
Hypothesis Hstr : forall s, P (VStr s).
Hypothesis Harr : forall l, Forall P l -> P (VArr l).
Hypothesis Hobj : forall ps, Forall (fun p => P (snd p)) ps -> P (VObj ps).
Hypothesis Href : forall l, P (VRef l).

Fixpoint Val_nested_ind (v : Val) : P v :=
  match v with
  | VUndef => Hundef
  | VNull => Hnull
  | VBool b => Hbool b
  | VNum n => Hnum n
  | VStr s => Hstr s
  | VArr l =>
      Harr l ((fix go (l : list Val) : Forall P l :=
                 match l with
                 | [] => Forall_nil_2 _
                 | x :: l' => Forall_cons_2 _ _ _ (Val_nested_ind x) (go l')
                 end) l)
  | VObj ps =>
      Hobj ps ((fix go (ps : list (string * Val)) : Forall (fun p => P (snd p)) ps :=
                  match ps with
                  | [] => Forall_nil_2 _
                  | p :: ps' =>
                      Forall_cons_2 (fun p => P (snd p)) p ps'
                        (Val_nested_ind (snd p)) (go ps')
                  end) ps)
  | VRef l => Href l
  end.
End ValInduction.

Abbreviation Object := (list (string * Val)).
Abbreviation Store := (list (list (string * Val))).

Fixpoint lookupKey (ps : Object) (k : string) : option Val :=
  match ps with
  | [] => None
  | (k', v) :: ps' => if String.eqb k' k then Some v else lookupKey ps' k
  end.

(** [o[k]]: [undefined] when the key is absent. *)
Definition getKey (ps : Object) (k : string) : Val :=
  default VUndef (lookupKey ps k).

(** [o[k] = v]: in place when the key exists, appended otherwise. *)
Fixpoint setKey (ps : Object) (k : string) (v : Val) : Object :=
  match ps with
  | [] => [(k, v)]
  | (k', v') :: ps' =>
      if String.eqb k' k then (k', v) :: ps' else (k', v') :: setKey ps' k v
  end.

Definition nullish (v : Val) : bool :=
  match v with VUndef | VNull => true | _ => false end.

(** [a ?? b] *)
Definition coalesce (a b : Val) : Val := if nullish a then b else a.
Infix "??" := coalesce (at level 45, left associativity).

(** [arr.flat()] (depth 1) *)
Definition flat (l : list Val) : list Val :=
  concat (map (fun v => match v with VArr l' => l' | _ => [v] end) l).

(** Modelled from the spec: [compact] ([util/lang]) is not among the
    sources; a first [filter] on a fresh query sends
    [{ $all: [{ age: { $gt: 30 } }] }], so it drops the [undefined] (and
    [null]) entries of an array. *)
Definition compact (l : list Val) : list Val :=
  List.filter (fun v => negb (nullish v)) l.

(** *** Queries *)

(** [QueryOptions]: the shape of [data], [parent] and [#data]. *)
Record QueryOptions : Type := {
  filter : option loc;
  sort : Val;
  columns : Val;
  pagination : Val;
  cache : Val
}.

Definition noOptions : QueryOptions :=
  {| filter := None; sort := VUndef; columns := VUndef;
     pagination := VUndef; cache := VUndef |}.

(** What [#repository] is: the repository handed to the constructor, or
    (for [null]) the query itself, which has no [query] method. *)
Inductive Backing : Type := SelfBacked | RepositoryBacked.

Record Query : Type := {
  table : string;
  repository : Backing;
  data : QueryOptions
}.

(** [PaginationQueryMeta] and the [Page] that [repository.query] resolves
    to ([schema/pagination], of which only these fields are read). *)
Record Page : Type := {
  records : list Val;
  cursor : string;
  more : bool
}.

(** The world: the store, the queries handed to the repository so far
    and the answers it will give. *)
Record World : Type := {
  store : Store;
  requests : list Query;
  responses : list (Outcome Page)
}.

Abbreviation M := (Run World).

Definition alloc (ps : Object) : M loc :=
  fun w => (Ok (List.length (store w)),
            {| store := store w ++ [ps];
               requests := requests w; responses := responses w |}).

(** [o?.k] *)
Definition readKey (o : option loc) (k : string) : M Val :=
  fun w => (Ok match o with
               | Some l => getKey (default [] (store w !! l)) k
               | None => VUndef
               end, w).

(** [o.k = v] *)
Definition writeKey (l : loc) (k : string) (v : Val) : M unit :=
  fun w => (Ok tt,
            {| store := alter (fun ps => setKey ps k v) l (store w);
               requests := requests w; responses := responses w |}).

(** [this.#data.filter.k = data.filter?.k ?? parent?.filter?.k] *)
Definition inherit (f : loc) (dataFilter parentFilter : option loc)
    (k : string) : M unit :=
  a ← readKey dataFilter k;
  b ← readKey parentFilter k;
  writeKey f k (a ?? b).

(** The constructor.  The [{ filter: {} }] initialiser of [#data] is
    overwritten before anything reads it and is left out. *)
Definition newQuery (repository : Backing) (table : string)
    (data : QueryOptions) (parent : option QueryOptions) : M Query :=
  let parentFilter := parent ≫= filter in
  f ← match filter data, parentFilter with
      | Some l, _ => ret l
      | None, Some l => ret l
      | None, None => alloc []
      end;
  _ ← inherit f (filter data) parentFilter "$any";
  _ ← inherit f (filter data) parentFilter "$all";
  _ ← inherit f (filter data) parentFilter "$not";
  _ ← inherit f (filter data) parentFilter "$none";
  let parentOr (get : QueryOptions -> Val) :=
    get data ?? from_option get VUndef parent in
  ret {| table := table;
         repository := repository;
         data := {| filter := Some f;
                    sort := parentOr sort;
                    columns := parentOr columns ?? VArr [VStr "*"];
                    pagination := parentOr pagination;
                    cache := parentOr cache |} |}.

Definition getQueryOptions (q : Query) : QueryOptions := data q.

(** [queries.map((query) => query.getQueryOptions().filter ?? {})] *)
Definition filtersOf (queries : list Query) : M (list Val) :=
  mapM (fun q => match filter (getQueryOptions q) with
                 | Some l => ret (VRef l)
                 | None => l ← alloc []; ret (VRef l)
                 end) queries.

(** [new Query(this.#repository, this.#table, { filter: { [k]: arr } }, this.#data)] *)
Definition withFilter (q : Query) (k : string) (arr : list Val) : M Query :=
  f ← alloc [(k, VArr arr)];
  newQuery (repository q) (table q)
    {| filter := Some f; sort := VUndef; columns := VUndef;
       pagination := VUndef; cache := VUndef |}
    (Some (data q)).

Definition any (q : Query) (queries : list Query) : M Query :=
  arr ← filtersOf queries; withFilter q "$any" arr.

Definition all (q : Query) (queries : list Query) : M Query :=
  arr ← filtersOf queries; withFilter q "$all" arr.

Definition not_ (q : Query) (queries : list Query) : M Query :=
  arr ← filtersOf queries; withFilter q "$not" arr.

Definition none (q : Query) (queries : list Query) : M Query :=
  arr ← filtersOf queries; withFilter q "$none" arr.

(** The two call shapes of [filter]. *)
Inductive FilterArgs : Type :=
| Constraints (a : list (string * Val))     (* [filter({ column: constraint, ... })] *)
| ColumnValue (a : string) (b : Val).       (* [filter(column, value)] *)

Definition constraintsOf (args : FilterArgs) : list Val :=
  match args with
  | Constraints a => map (fun p => VObj [(fst p, snd p)]) a
  | ColumnValue a b => [VObj [(a, b)]]
  end.

Definition filter_ (q : Query) (args : FilterArgs) : M Query :=
  all0 ← readKey (filter (data q)) "$all";
  withFilter q "$all" (compact (flat [all0] ++ constraintsOf args)).

Inductive SortDirection : Type := Asc | Desc.

Definition directionName (d : SortDirection) : string :=
  match d with Asc => "asc" | Desc => "desc" end.

Definition sort_ (q : Query) (column : string) (direction : SortDirection) : M Query :=
  let originalSort := flat [sort (data q) ?? VArr []] in
  let sort :=
    VArr (originalSort ++
          [VObj [("column", VStr column); ("direction", VStr (directionName direction))]]) in
  newQuery (repository q) (table q)
    {| filter := None; sort := sort; columns := VUndef;
       pagination := VUndef; cache := VUndef |}
    (Some (data q)).

Definition select (q : Query) (columns : list string) : M Query :=
  newQuery (repository q) (table q)
    {| filter := None; sort := VUndef; columns := VArr (map VStr columns);
       pagination := VUndef; cache := VUndef |}
    (Some (data q)).

Definition cache_ (q : Query) (ttl : Z) : M Query :=
  newQuery (repository q) (table q)
    {| filter := None; sort := VUndef; columns := VUndef;
       pagination := VUndef; cache := VNum ttl |}
    (Some (data q)).

(** The filter object of a query at store [σ]. *)
Definition filterProps (σ : Store) (q : Query) : Object :=
  match filter (data q) with
  | Some l => default [] (σ !! l)
  | None => []
  end.

(** What the four [inherit] steps of the constructor make of a fresh
    filter object [own] under a parent filter object [parent]. *)
Definition inherited (own parent : Object) : Object :=
  foldl (fun ps k => setKey ps k (getKey ps k ?? getKey parent k)) own
        ["$any"; "$all"; "$not"; "$none"].

(** What the four [inherit] steps make of the parent's own filter object
    when a query is built without filter data and shares it: every
    combinator is written back with the value it had, so a key that was
    missing appears, holding [undefined]. *)
Definition refreshed (ps : Object) : Object :=
  foldl (fun ps k => setKey ps k (getKey ps k)) ps
        ["$any"; "$all"; "$not"; "$none"].

(** The entries of a conjunction ([FilterList]): those of a list, the
    filter itself when it stands alone, none when it is absent. *)
Definition conjuncts (v : Val) : list Val :=
  match v with
  | VArr l => l
  | VUndef | VNull => []
  | _ => [v]
  end.

(** A list of filters has no [null] or [undefined] entry. *)
Definition listTyped (v : Val) : bool :=
  match v with
  | VArr entries => forallb (fun v => negb (nullish v)) entries
  | _ => true
  end.

(** Every reference in the value is to an address below [n]. *)
Fixpoint refsBelow (n : nat) (v : Val) : bool :=
  match v with
  | VArr l => forallb (refsBelow n) l
  | VObj ps => forallb (fun p => refsBelow n (snd p)) ps
  | VRef l => bool_decide (l < n)%nat
  | _ => true
  end.

(** The sort, columns and pagination of the options refer to nothing at
    or above [n]. *)
Definition closedData (n : nat) (d : QueryOptions) : bool :=
  refsBelow n (sort d) && refsBelow n (columns d) && refsBelow n (pagination d).

(** The object has the four combinator keys. *)
Definition hasCombinators (ps : Object) : bool :=
  forallb (fun k => match lookupKey ps k with Some _ => true | None => false end)
          ["$any"; "$all"; "$not"; "$none"].

(** A query as the constructor leaves them: its filter object is in the
    store and has the four combinator keys, its columns are set, its
    [$all] is a [FilterList] and its options refer to the store only. *)
Definition wellFormed (σ : Store) (q : Query) : bool :=
  match filter (data q) with
  | Some l =>
      bool_decide (l < List.length σ)%nat
      && negb (nullish (columns (data q)))
      && listTyped (getKey (default [] (σ !! l)) "$all")
      && hasCombinators (default [] (σ !! l))
      && closedData (List.length σ) (data q)
  | None => false
  end.

(** The calls of the builder. *)
Inductive Call : Type :=
| CallFilter (args : FilterArgs)
| CallAny (queries : list Query)
| CallAll (queries : list Query)
| CallNot (queries : list Query)
| CallNone (queries : list Query)
| CallSort (column : string) (direction : SortDirection)
| CallSelect (columns : list string)
| CallCache (ttl : Z).

Definition call (q : Query) (c : Call) : M Query :=
  match c with
  | CallFilter args => filter_ q args
  | CallAny queries => any q queries
  | CallAll queries => all q queries
  | CallNot queries => not_ q queries
  | CallNone queries => none q queries
  | CallSort column direction => sort_ q column direction
  | CallSelect columns => select q columns
  | CallCache ttl => cache_ q ttl
  end.

Definition subqueries (c : Call) : list Query :=
  match c with
  | CallAny queries | CallAll queries | CallNot queries | CallNone queries => queries
  | _ => []
  end.

(** The world with another store. *)
Definition withStore (σ : Store) (w : World) : World :=
  {| store := σ; requests := requests w; responses := responses w |}.

(** The options of a query built on [q] from the data [own], its filter
    object at [f]. *)
Definition childOptions (f : loc) (own : QueryOptions) (q : Query) : QueryOptions :=
  {| filter := Some f;
     sort := sort own ?? sort (data q);
     columns := columns own ?? columns (data q) ?? VArr [VStr "*"];
     pagination := pagination own ?? pagination (data q);
     cache := cache own ?? cache (data q) |}.

(** The store is ordered: an object refers only to objects allocated
    before it, so filter trees are acyclic. *)
Definition ordered (σ : Store) : Prop :=
  forall l ps, σ !! l = Some ps ->
    forallb (fun p => refsBelow l (snd p)) ps = true.

(** The values a call of the builder brings in. *)
Definition callValues (c : Call) : list Val :=
  match c with
  | CallFilter args => constraintsOf args
  | _ => []
  end.

(** *** The cache key *)

(** A value with every reference followed: what [JSON.stringify] walks. *)
Inductive Json : Type :=
| JUndef
| JNull
| JBool (b : bool)
| JNum (n : Z)
| JStr (s : string)
| JArr (elems : list Json)
| JObj (props : list (string * Json)).

(** Follow the references of [v] through the store; the fuel bounds the
    number of references on a path (a cyclic store has no snapshot, and
    [JSON.stringify] throws on it). *)
Fixpoint snapshot (fuel : nat) (σ : Store) : Val -> option Json :=
  fix go (v : Val) : option Json :=
    match v with
    | VUndef => Some JUndef
    | VNull => Some JNull
    | VBool b => Some (JBool b)
    | VNum n => Some (JNum n)
    | VStr s => Some (JStr s)
    | VArr l => JArr <$> mapM go l
    | VObj ps => JObj <$> mapM (fun p => j ← go (snd p); Some (fst p, j)) ps
    | VRef l =>
        match fuel with
        | O => None
        | S fuel' =>
            ps ← σ !! l;
            JObj <$> mapM (fun p => j ← snapshot fuel' σ (snd p); Some (fst p, j)) ps
        end
    end.

Definition hexDigit (n : N) : ascii :=
  nth (N.to_nat n) (list_ascii_of_string "0123456789abcdef") "0"%char.

(** [QuoteJSONString]: the escapes of [JSON.stringify] on a string. *)
Definition escapeChar (c : ascii) : string :=
  let n := N_of_ascii c in
  if (n =? 8)%N then "\b"
  else if (n =? 9)%N then "\t"
  else if (n =? 10)%N then "\n"
  else if (n =? 12)%N then "\f"
  else if (n =? 13)%N then "\r"
  else if (n =? 34)%N then String "\"%char (String c EmptyString)
  else if (n =? 92)%N then "\\"
  else if (n <? 32)%N
       then "\u00" +:+ String (hexDigit (n / 16)) (String (hexDigit (n mod 16)) EmptyString)
       else String c EmptyString.

Definition quote (s : string) : string :=
  let q := String (ascii_of_N 34) EmptyString in
  q +:+ String.concat "" (map escapeChar (list_ascii_of_string s)) +:+ q.

(** Numbers are integral and print in decimal. *)
Definition decimal (n : Z) : string :=
  NilZero.string_of_int (Z.to_int n).

(** [JSON.stringify]: [None] is the [undefined] result; a property whose
    value serializes to [undefined] is skipped, an array entry that does
    becomes [null]; properties come out in property order. *)
Fixpoint stringify (j : Json) : option string :=
  match j with
  | JUndef => None
  | JNull => Some "null"
  | JBool b => Some (if b then "true" else "false")
  | JNum n => Some (decimal n)
  | JStr s => Some (quote s)
  | JArr l =>
      Some ("[" +:+ String.concat "," (map (fun x => default "null" (stringify x)) l) +:+ "]")
  | JObj ps =>
      Some ("{" +:+ String.concat ","
                     (omap (fun p => s ← stringify (snd p);
                                     Some (quote (fst p) +:+ ":" +:+ s)) ps)
                +:+ "}")
  end.

Definition base64Digit (n : N) : ascii :=
  nth (N.to_nat n)
      (list_ascii_of_string
         "ABCDEFGHIJKLMNOPQRSTUVWXYZabcdefghijklmnopqrstuvwxyz0123456789+/")
      "="%char.

Fixpoint base64 (bytes : list N) : list ascii :=
  match bytes with
  | [] => []
  | [a] =>
      [base64Digit (a / 4); base64Digit (a mod 4 * 16); "="%char; "="%char]
  | [a; b] =>
      [base64Digit (a / 4); base64Digit (a mod 4 * 16 + b / 16);
       base64Digit (b mod 16 * 4); "="%char]
  | a :: b :: c :: rest =>
      [base64Digit (a / 4); base64Digit (a mod 4 * 16 + b / 16);
       base64Digit (b mod 16 * 4 + c / 64); base64Digit (c mod 64)]
      ++ base64 rest
  end%N.

(** Modelled from the spec: [toBase64] ([util/lang]) is not among the
    sources; the fingerprint is a string derived from the serialization,
    taken to be the standard Base64 encoding of its bytes. *)
Definition toBase64 (s : string) : string :=
  string_of_list_ascii (base64 (map N_of_ascii (list_ascii_of_string s))).

(** [x = dflt] in a destructuring pattern: the default replaces
    [undefined] only. *)
Definition orDefault (v dflt : Val) : Val :=
  match v with VUndef => dflt | _ => v end.

(** The object [{ columns, filter, sort, pagination }] that [key]
    serializes, references still in place. *)
Definition keyObject (q : Query) : Val :=
  VObj [("columns", orDefault (columns (data q)) (VArr []));
        ("filter", match filter (data q) with Some l => VRef l | None => VObj [] end);
        ("sort", orDefault (sort (data q)) (VArr []));
        ("pagination", orDefault (pagination (data q)) (VObj []))].

(** The resolved state [key] serializes, at store [σ]. *)
Definition resolved (fuel : nat) (σ : Store) (q : Query) : option Json :=
  snapshot fuel σ (keyObject q).

(** [key()] *)
Definition key (fuel : nat) (σ : Store) (q : Query) : option string :=
  j ← resolved fuel σ q;
  toBase64 <$> stringify j.




(** *** Example queries *)

Definition emptyWorld : World := {| store := []; requests := []; responses := [] |}.

(** [repository.query()]: a fresh query on [users]; the query and the
    world it leaves. *)
Definition baseQuery : M Query := newQuery RepositoryBacked "users" noOptions None.

Definition base0 : Query :=
  {| table := "users"; repository := RepositoryBacked;
     data := {| filter := Some 0%nat; sort := VUndef; columns := VArr [VStr "*"];
                pagination := VUndef; cache := VUndef |} |}.

Definition world0 : World :=
  {| store := [[("$any", VUndef); ("$all", VUndef); ("$not", VUndef); ("$none", VUndef)]];
     requests := []; responses := [] |}.




(** *** Running a query *)

(** [this.#repository.query(query)]: the query is recorded and the next
    scripted answer consumed; a query that backs itself has no [query]
    method to call. *)
Definition repositoryQuery (backing : Backing) (query : Query) : M Page :=
  match backing with
  | SelfBacked => throw TypeError
  | RepositoryBacked =>
      fun w =>
        let w' := {| store := store w; requests := requests w ++ [query];
                     responses := tail (responses w) |} in
        match responses w with
        | [] => (Throw (TransportError 0), w')
        | a :: _ => (a, w')
        end
  end.

(** [getPaginated(options)] *)
Definition getPaginated (q : Query) (options : QueryOptions) : M Page :=
  query ← newQuery (repository q) (table q) options (Some (data q));
  repositoryQuery (repository q) query.

(** [{ ...options, pagination }] *)
Definition withPagination (options : QueryOptions) (p : Val) : QueryOptions :=
  {| filter := filter options; sort := sort options; columns := columns options;
     pagination := p; cache := cache options |}.

(** [getMany(options)] *)
Definition getMany (q : Query) (options : QueryOptions) : M (list Val) :=
  page ← getPaginated q options; ret (records page).

(** [getFirst(options)]: [records[0] ?? null] *)
Definition getFirst (q : Query) (options : QueryOptions) : M Val :=
  records ← getMany q (withPagination options (VObj [("size", VNum 1)]));
  ret (default VUndef (head records) ?? VNull).

(** The state of the generator [getIterator] between two [next()]:
    the locals [offset] and [end]. *)
Record IteratorState : Type := {
  offset : Z;
  finished : bool
}.

Definition iteratorStart : IteratorState := {| offset := 0; finished := false |}.

(** One [next()] on [getIterator({ ...options, batchSize })]: [None] once
    the loop has ended, else the batch of one more round trip. *)
Definition iteratorNext (q : Query) (options : QueryOptions) (batchSize : option Z)
    (st : IteratorState) : M (option (list Val) * IteratorState) :=
  let batchSize := default 1 batchSize in
  if finished st then ret (None, st)
  else
    page ← getPaginated q
             (withPagination options
                (VObj [("size", VNum batchSize); ("offset", VNum (offset st))]));
    ret (Some (records page),
         {| offset := offset st + batchSize; finished := negb (more page) |}).

(** The [for await] loop of [getAll]; the fuel bounds the number of
    [next()] calls. *)
Fixpoint collect (fuel : nat) (q : Query) (options : QueryOptions)
    (batchSize : option Z) (st : IteratorState) (results : list Val)
    (w : World) : option (Outcome (list Val) * World) :=
  match fuel with
  | O => None
  | S fuel' =>
      match iteratorNext q options batchSize st w with
      | (Throw e, w') => Some (Throw e, w')
      | (Ok (None, _), w') => Some (Ok results, w')
      | (Ok (Some page, st'), w') =>
          collect fuel' q options batchSize st' (results ++ page) w'
      end
  end.

Section GetAll.
(** The page size ceiling of [schema/pagination]. *)
Variable PAGINATION_MAX_SIZE : Z.

(** [getAll({ ...rest, batchSize })] *)
Definition getAll (fuel : nat) (q : Query) (rest : QueryOptions)
    (batchSize : option Z) (w : World) : option (Outcome (list Val) * World) :=
  let batchSize := default PAGINATION_MAX_SIZE batchSize in
  collect fuel q rest (Some batchSize) iteratorStart [] w.
End GetAll.

(** Three pages with [more] = [true], [true], [false], and a fourth
    that a further request would get. *)
Definition fourPages : list (Outcome Page) :=
  [Ok {| records := [VStr "r1"; VStr "r2"]; cursor := "c1"; more := true |};
   Ok {| records := [VStr "r3"; VStr "r4"]; cursor := "c2"; more := true |};
   Ok {| records := [VStr "r5"]; cursor := "c3"; more := false |};
   Ok {| records := [VStr "r6"]; cursor := "c4"; more := true |}].

Definition withResponses (answers : list (Outcome Page)) (w : World) : World :=
  {| store := store w; requests := requests w; responses := answers |}.

(** A [Query] is itself a page: [meta = { page: { cursor: 'start', more:
    true } }] and [records = []]. *)
Definition Query_cursor : string := "start".
Definition hasNextPage (q : Query) : bool := true.

(** [firstPage], [nextPage], [previousPage], [lastPage]; an omitted
    argument is [VUndef]. *)
Definition firstPage (q : Query) (size offset : Val) : M Page :=
  getPaginated q
    (withPagination noOptions (VObj [("size", size); ("offset", offset)])).

Definition nextPage (q : Query) (size offset : Val) : M Page :=
  firstPage q size offset.

Definition previousPage (q : Query) (size offset : Val) : M Page :=
  firstPage q size offset.

Definition lastPage (q : Query) (size offset : Val) : M Page :=
  getPaginated q
    (withPagination noOptions
       (VObj [("size", size); ("offset", offset); ("before", VStr "end")])).

(** The [pagination] a recorded request carries, and one of its fields. *)
Definition paginationField (request : Query) (k : string) : Val :=
  match pagination (data request) with
  | VObj ps => getKey ps k
  | _ => VUndef
  end.

End Schema.

(** * Properties *)

(** ** Running a computation *)

Lemma bind_run {S A B} (m : Run S A) (k : A -> Run S B) w :
  (x ← m; k x) w =
  match m w with
  | (Ok a, w') => k a w'
  | (Throw e, w') => (Throw e, w')
  end.
Proof. reflexivity. Qed.

(** ** Record hydration *)

Module HydrationFacts.
Import Legacy.

(** *** Property lists *)

Lemma getProp_setProp_same ps k v : getProp (setProp ps k v) k = v.
Proof.
  unfold getProp. induction ps as [|[k' [v' e]] ps IH]; simpl.
  - by rewrite String.eqb_refl.
  - destruct (String.eqb k' k) eqn:E; simpl; rewrite E; [done | apply IH].
Qed.






(** *** Arrays as property lists *)

Lemma index_key_not_id i : NilZero.string_of_uint (Nat.to_uint i) ≠ "id".
Proof.
  unfold NilZero.string_of_uint. destruct (Nat.to_uint i); simpl; discriminate.
Qed.

Lemma lookupProp_indexProps_id l : forall i, lookupProp (indexProps i l) "id" = None.
Proof.
  induction l as [|v l IH]; intros i; simpl; [done|].
  destruct (String.eqb _ "id") eqn:E; [|apply IH].
  apply String.eqb_eq in E. by apply index_key_not_id in E.
Qed.

Lemma enumerable_indexProps l : forall i, enumerable (indexProps i l) = indexProps i l.
Proof. induction l as [|v l IH]; intros i; simpl; [done | by rewrite IH]. Qed.

Lemma depthProps_indexProps l : forall i,
  depthProps (indexProps i l) = list_max (map depth l).
Proof.
  unfold depthProps. induction l as [|v l IH]; intros i; simpl; [done | by rewrite IH].
Qed.










(** An enumerable [id] is found by [Object.keys(value).find(...)]. *)
Lemma jsFind_id ps v :
  lookupProp ps "id" = Some (v, true) ->
  jsFind (fun col => String.eqb col "id") (map fst (enumerable ps)) = Some "id".
Proof.
  induction ps as [|[k0 [v0 e0]] ps IH]; simpl; [done|].
  destruct (String.eqb k0 "id") eqn:E.
  - inversion 1; subst. simpl. rewrite E. by apply String.eqb_eq in E as ->.
  - intros H. destruct e0; simpl; [rewrite E|]; by apply IH.
Qed.

Lemma jsFind_indexProps l : forall i,
  jsFind (fun col => String.eqb col "id") (map fst (indexProps i l)) = None.
Proof.
  induction l as [|v l IH]; intros i; simpl; [done|].
  destruct (String.eqb _ "id") eqn:E; [|apply IH].
  apply String.eqb_eq in E. by apply index_key_not_id in E.
Qed.

(** An array is never taken for a linked record. *)
Lemma linkAction_array l : linkAction (VArr l) = Untouched.
Proof.
  unfold linkAction, member, objectKeys, getProp. simpl.
  by rewrite enumerable_indexProps, jsFind_indexProps, lookupProp_indexProps_id.
Qed.

(** The arm that installs [{ id, get }] needs a truthy [id] that
    [Object.keys] does not list. *)
Lemma linkAction_LinkRef value id :
  linkAction value = LinkRef id ->
  exists f ps, value = VObj f ps /\ idVisible ps = false.
Proof.
  destruct value as [| | | | |l|frozen props|]; try by rewrite ?linkAction_array.
  all: unfold linkAction; simpl; rewrite ?andb_false_r; try done.
  unfold member, objectKeys, idVisible. simpl.
  destruct (jsFind _ _) eqn:E; [done|].
  unfold getProp. destruct (lookupProp props "id") as [[v e]|] eqn:L; [|done].
  destruct e; [by rewrite (jsFind_id _ _ L) in E|].
  intros _. exists frozen, props. by rewrite L.
Qed.

Lemma linkAction_Embedded value :
  linkAction value = Embedded ->
  exists f ps, value = VObj f ps.
Proof.
  destruct value as [| | | | |l|frozen props|]; try by rewrite ?linkAction_array.
  all: unfold linkAction; simpl; rewrite ?andb_false_r; try done; eauto.
Qed.



(** *** Fuel *)

Lemma initLinks_mono (rec1 rec2 : string -> Val -> option Val) ll :
  (forall t v r, rec1 t v = Some r -> rec2 t v = Some r) ->
  forall o o', initLinks rec1 o ll = Some o' -> initLinks rec2 o ll = Some o'.
Proof.
  intros Hrec. induction ll as [|[field linkTable] ll IH]; simpl; [done|].
  intros o o'. unfold initLink.
  destruct (linkAction (getProp o field)) eqn:A; simpl; try apply IH.
  destruct (rec1 linkTable (getProp o field)) as [r|] eqn:R; simpl; [|done].
  rewrite (Hrec _ _ _ R). simpl. apply IH.
Qed.

Lemma initObject_unfold links fuel table object :
  initObject links (S fuel) table object =
  (o' ← initLinks (initObject links fuel) (assignFrom object)
         (default [] (links !! table));
   Some (bindMethods table o')).
Proof. reflexivity. Qed.

Lemma initObject_S links fuel : forall table object r,
  initObject links fuel table object = Some r ->
  initObject links (S fuel) table object = Some r.
Proof.
  induction fuel as [|fuel IH]; [done|].
  intros table object r. rewrite !initObject_unfold.
  destruct (initLinks (initObject links fuel) _ _) as [o'|] eqn:E; [|done].
  intros H.
  by rewrite (initLinks_mono _ (initObject links (S fuel)) _ IH _ _ E).
Qed.

Lemma initObject_mono links fuel fuel' table object r :
  (fuel <= fuel')%nat ->
  initObject links fuel table object = Some r ->
  initObject links fuel' table object = Some r.
Proof.
  induction 1 as [|fuel' _ IH]; [done|].
  intros H. apply initObject_S. by apply IH.
Qed.

(** *** Depth *)

Lemma depth_getProp ps k : (depth (getProp ps k) <= depthProps ps)%nat.
Proof.
  unfold getProp, depthProps. induction ps as [|[k0 [v0 e0]] ps IH]; simpl; [lia|].
  destruct (String.eqb k0 k); simpl in *; lia.
Qed.

Lemma depthProps_enumerable ps : (depthProps (enumerable ps) <= depthProps ps)%nat.
Proof.
  unfold depthProps. induction ps as [|[k0 [v0 e0]] ps IH]; simpl; [lia|].
  destruct e0; simpl in *; lia.
Qed.

Lemma depthProps_setProp ps k v :
  (depthProps (setProp ps k v) <= Nat.max (depthProps ps) (depth v))%nat.
Proof.
  unfold depthProps. induction ps as [|[k0 [v0 e0]] ps IH]; simpl; [lia|].
  destruct (String.eqb k0 k); simpl in *; lia.
Qed.

Lemma depthProps_hideProp ps k : depthProps (hideProp ps k) = depthProps ps.
Proof.
  unfold depthProps. induction ps as [|[k0 [v0 e0]] ps IH]; simpl; [done|].
  destruct (String.eqb k0 k); simpl in *; lia.
Qed.

Lemma depthProps_setProp_leaf ps k v :
  depth v = O -> (depthProps (setProp ps k v) <= depthProps ps)%nat.
Proof. intros H. pose proof (depthProps_setProp ps k v). lia. Qed.

Lemma depth_bindMethods table o :
  (depth (bindMethods table o) <= S (depthProps o))%nat.
Proof.
  unfold bindMethods. cbn [depth].
  change (list_max (map (fun p => depth p.2.1) ?ps)) with (depthProps ps).
  rewrite !depthProps_hideProp.
  apply le_n_S.
  do 3 (etrans; [by apply depthProps_setProp_leaf|]).
  done.
Qed.


Lemma initLinks_empty rec ll : initLinks rec [] ll = Some [].
Proof. induction ll as [|[field linkTable] ll IH]; simpl; [done | apply IH]. Qed.

Lemma depth_linkRef linkTable id : depth (linkRef linkTable id) = S (depth id).
Proof. unfold linkRef. simpl. lia. Qed.

Lemma initLinks_total (rec : string -> Val -> option Val) (d : nat) :
  (forall t v, (1 <= depth v <= d)%nat ->
     exists r, rec t v = Some r /\ (depth r <= depth v)%nat) ->
  forall ll o, (depthProps o <= d)%nat ->
    exists o', initLinks rec o ll = Some o' /\ (depthProps o' <= d)%nat.
Proof.
  intros Hrec. induction ll as [|[field linkTable] ll IH]; intros o Ho; simpl; [eauto|].
  pose proof (depth_getProp o field) as Hv.
  destruct (linkAction (getProp o field)) eqn:A; simpl.
  - destruct (linkAction_Embedded _ A) as (f & ps & Eq).
    destruct (Hrec linkTable (getProp o field)) as (r & -> & Hr).
    { rewrite Eq in *. simpl in *. lia. }
    simpl. apply IH.
    pose proof (depthProps_setProp o field r). lia.
  - apply IH.
    destruct (linkAction_LinkRef _ _ A) as (f & ps & Eq & _).
    assert (id = member (getProp o field) "id") as ->.
    { revert A. unfold linkAction. rewrite Eq. simpl.
      destruct (jsFind _ _); [done|]. destruct (truthy _); [by inversion 1 | done]. }
    pose proof (depthProps_setProp o field
                  (linkRef linkTable (member (getProp o field) "id"))) as H.
    rewrite depth_linkRef in H.
    assert (depth (member (getProp o field) "id") < depth (getProp o field))%nat.
    { rewrite Eq. unfold member. simpl.
      pose proof (depth_getProp ps "id"). unfold depthProps in *. lia. }
    lia.
  - by apply IH.
Qed.

Lemma depthProps_assignFrom object :
  (depthProps (assignFrom object) <= Nat.pred (depth object))%nat.
Proof.
  unfold assignFrom. etrans; [apply depthProps_enumerable|].
  destruct object; simpl; try (unfold depthProps; simpl; lia).
  by rewrite depthProps_indexProps.
Qed.

(** Enough fuel: one unit per level of nesting. *)
Lemma initObject_total links fuel : forall table object,
  (depth object < fuel)%nat ->
  exists r, initObject links fuel table object = Some r
            /\ (depth r <= Nat.max 1 (depth object))%nat.
Proof.
  induction fuel as [|fuel IH]; intros table object Hd; [lia|].
  rewrite initObject_unfold.
  destruct (initLinks_total (initObject links fuel) (depthProps (assignFrom object)))
    with (ll := default [] (links !! table)) (o := assignFrom object)
    as (o' & -> & Ho'); [|done|].
  - intros t v Hv.
    destruct (IH t v) as (r & Hr & Hdr).
    { pose proof (depthProps_assignFrom object). lia. }
    exists r. split; [done | lia].
  - simpl. eexists. split; [done|].
    pose proof (depth_bindMethods table o').
    pose proof (depthProps_assignFrom object). lia.
Qed.

Lemma hydrate_initObject links fuel table object r :
  initObject links fuel table object = Some r ->
  hydrate links table object = r.
Proof.
  intros H. unfold hydrate.
  destruct (initObject_total links (S (depth object)) table object) as (r' & Hr' & _); [lia|].
  rewrite Hr'. simpl.
  eapply (initObject_mono _ _ (Nat.max fuel (S (depth object)))) in H; [|lia].
  eapply (initObject_mono _ _ (Nat.max fuel (S (depth object)))) in Hr'; [|lia].
  congruence.
Qed.

Lemma hydrate_total links table object :
  initObject links (S (depth object)) table object = Some (hydrate links table object).
Proof.
  destruct (initObject_total links (S (depth object)) table object) as (r & Hr & _); [lia|].
  by rewrite (hydrate_initObject _ _ _ _ _ Hr).
Qed.

(** *** No [get] accessor *)









(** C3 (as the code runs it): hydrating the row [{id:"1", xata:{version:0},
    author:{id:"a1"}}] under the links [{users:[["author","authors"]]}]
    gives a record whose [author.id] is ["a1"] and whose [author.name] is
    undefined, but whose [author] is a nested record bound to [authors]
    (it has [read]) and has no [get]: the lazy accessor the claim
    expects is not installed. *)
Theorem hydrate_scenario_author :
  let r := hydrate links1 "users" row1 in
  let author := member r "author" in
  member author "id" = VStr "a1"
  /\ member author "name" = VUndef
  /\ member author "get" = VUndef
  /\ callable (member author "get") = false
  /\ member author "read" = VFun MRead "authors" (VStr "a1").
Proof. vm_compute. repeat split. Qed.



End HydrationFacts.

(** ** Branch resolution *)

Module BranchFacts.
Import Legacy.

Lemma afterResolution_nil w : afterResolution [] (memo w) w = w.
Proof. destruct w. unfold afterResolution. simpl. by rewrite app_nil_r. Qed.

Lemma afterResolution_app calls calls' b b' w :
  afterResolution calls' b' (afterResolution calls b w)
  = afterResolution (calls ++ calls') b' w.
Proof. unfold afterResolution. simpl. by rewrite app_assoc. Qed.

(** Evaluating one strategy: its value, and the builder recorded. *)
Lemma evaluateBranch_run i strategy w :
  Legacy.evaluateBranch i strategy w
  = (evaluatesTo (env w) strategy,
     afterResolution (builderPositions i [strategy]) (memo w) w).
Proof.
  destruct strategy; simpl.
  - unfold ret. by rewrite afterResolution_nil.
  - done.
Qed.

Lemma resolveFrom_unfold i strategy rest w :
  resolveFrom i (strategy :: rest) w =
  match evaluatesTo (env w) strategy with
  | Ok b =>
      if branchTruthy b
      then (Ok (branchName b),
            afterResolution (builderPositions i [strategy]) b w)
      else resolveFrom (S i) rest
             (afterResolution (builderPositions i [strategy]) (memo w) w)
  | Throw e =>
      (Throw e, afterResolution (builderPositions i [strategy]) (memo w) w)
  end.
Proof.
  cbn [resolveFrom]. unfold mbind, Run_bind, bind.
  rewrite evaluateBranch_run.
  destruct (evaluatesTo (env w) strategy) as [b|e]; [|done].
  destruct (branchTruthy b); done.
Qed.

Lemma builderPositions_app i l l' :
  builderPositions i (l ++ l') =
  builderPositions i l ++ builderPositions (i + List.length l)%nat l'.
Proof.
  revert i. induction l as [|[v|f] l IH]; intros i; simpl.
  - by rewrite Nat.add_0_r.
  - rewrite IH. do 2 f_equal. lia.
  - rewrite IH. do 3 f_equal. lia.
Qed.

(** Strategies that yield nothing are passed over. *)
Lemma resolveFrom_skip pre : forall i rest w,
  forallb (yieldsEmpty (env w)) pre = true ->
  resolveFrom i (pre ++ rest) w =
  resolveFrom (i + List.length pre)%nat rest
    (afterResolution (builderPositions i pre) (memo w) w).
Proof.
  induction pre as [|s pre IH]; intros i rest w H.
  - simpl. by rewrite Nat.add_0_r, afterResolution_nil.
  - simpl in H. apply andb_prop in H as [Hs Hpre].
    rewrite <- app_comm_cons, resolveFrom_unfold. unfold yieldsEmpty in Hs.
    destruct (evaluatesTo (env w) s) as [b|e]; [|done].
    apply negb_true_iff in Hs. rewrite Hs.
    rewrite IH by done.
    rewrite afterResolution_app.
    replace (S i + List.length pre)%nat with (i + List.length (s :: pre))%nat
      by (simpl; lia).
    do 2 f_equal.
    change (s :: pre) with ([s] ++ pre).
    rewrite (builderPositions_app i [s] pre). simpl List.length.
    by replace (i + 1)%nat with (S i) by lia.
Qed.

Lemma resolveFrom_exhausted l : forall i w,
  forallb (yieldsEmpty (env w)) l = true ->
  resolveFrom i l w =
  (Throw (JsError "Unable to resolve branch value"),
   afterResolution (builderPositions i l) (memo w) w).
Proof.
  intros i w H.
  rewrite <- (app_nil_r l) at 1. rewrite resolveFrom_skip by done.
  done.
Qed.


Lemma resolveFrom_first pre s post b i w :
  forallb (yieldsEmpty (env w)) pre = true ->
  evaluatesTo (env w) s = Ok b -> branchTruthy b = true ->
  resolveFrom i (pre ++ s :: post) w =
  (Ok (branchName b), afterResolution (builderPositions i (pre ++ [s])) b w).
Proof.
  intros Hpre Hs Hb.
  rewrite resolveFrom_skip, resolveFrom_unfold by done.
  simpl env. rewrite Hs, Hb, afterResolution_app, builderPositions_app. done.
Qed.

(** A resolved branch answers every later call: nothing is evaluated and
    the world is left as it is. *)
Lemma getBranch_memo c w :
  branchTruthy (memo w) = true -> getBranch c w = (Ok (branchName (memo w)), w).
Proof. intros H. unfold getBranch. by rewrite H. Qed.

Lemma resolveFrom_Ok l : forall i w b w',
  resolveFrom i l w = (Ok b, w') ->
  branchTruthy (memo w') = true /\ branchName (memo w') = b.
Proof.
  induction l as [|s l IH]; intros i w b w'; [done|].
  rewrite resolveFrom_unfold.
  destruct (evaluatesTo (env w) s) as [v|e]; [|done].
  destruct (branchTruthy v) eqn:T; [|apply IH].
  by intros [= <- <-].
Qed.

Lemma getBranch_Ok c w b w' :
  getBranch c w = (Ok b, w') ->
  branchTruthy (memo w') = true /\ branchName (memo w') = b.
Proof.
  unfold getBranch. destruct (branchTruthy (memo w)) eqn:T.
  - by intros [= <- <-].
  - apply resolveFrom_Ok.
Qed.

(** The operations of the repository reach the transport only after the
    branch is resolved. *)
Lemma getWorkspaceId_world regexExec c w : snd (getWorkspaceId regexExec c w) = w.
Proof.
  unfold getWorkspaceId. destruct (regexExec _) as [[ws db]|]; [|done].
  by destruct (String.eqb ws "").
Qed.

Lemma getDatabaseId_world regexExec c w : snd (getDatabaseId regexExec c w) = w.
Proof.
  unfold getDatabaseId. destruct (regexExec _) as [[ws db]|]; [|done].
  by destruct (String.eqb db "").
Qed.

Section NoRequest.
Variable regexExec : string -> option (string * string).
Variables (c : BaseClient) (w : World).
Hypothesis exhausted :
  exists e w', getBranch c w = (Throw e, w') /\ requests w' = requests w.

Lemma read_no_request table v :
  (exists e, fst (read regexExec c table v w) = Throw e)
  /\ requests (snd (read regexExec c table v w)) = requests w.
Proof.
  destruct exhausted as (e & w' & Hb & Hr).
  unfold read, mbind, Run_bind, bind.
  pose proof (getWorkspaceId_world regexExec c w) as Hw.
  destruct (getWorkspaceId regexExec c w) as [[ws|e'] w0]; simpl in Hw; subst w0.
  - rewrite Hb. simpl. eauto.
  - simpl. eauto.
Qed.

Lemma create_no_request table object :
  (exists e, fst (create regexExec c table object w) = Throw e)
  /\ requests (snd (create regexExec c table object w)) = requests w.
Proof.
  destruct exhausted as (e & w' & Hb & Hr).
  unfold create, mbind, Run_bind, bind.
  pose proof (getWorkspaceId_world regexExec c w) as Hw.
  destruct (getWorkspaceId regexExec c w) as [[ws|e'] w0]; simpl in Hw; subst w0.
  - rewrite Hb. simpl. eauto.
  - simpl. eauto.
Qed.

Lemma getPaginated_no_request q page :
  (exists e, fst (getPaginated regexExec c q page w) = Throw e)
  /\ requests (snd (getPaginated regexExec c q page w)) = requests w.
Proof.
  destruct exhausted as (e & w' & Hb & Hr).
  unfold getPaginated, mbind, Run_bind, bind.
  pose proof (getWorkspaceId_world regexExec c w) as Hw.
  destruct (getWorkspaceId regexExec c w) as [[ws|e'] w0]; simpl in Hw; subst w0.
  - pose proof (getDatabaseId_world regexExec c w) as Hd.
    destruct (getDatabaseId regexExec c w) as [[db|e'] w0]; simpl in Hd; subst w0.
    + rewrite Hb. simpl. eauto.
    + simpl. eauto.
  - simpl. eauto.
Qed.
End NoRequest.

End BranchFacts.

Module ClientFacts.
Import Legacy Client BranchFacts.

Lemma evaluateFrom_unfold i strategy rest w :
  evaluateFrom i (strategy :: rest) w =
  match evaluatesTo (env w) strategy with
  | Ok b =>
      if branchTruthy b
      then (Ok b, afterResolution (builderPositions i [strategy]) b w)
      else evaluateFrom (S i) rest
             (afterResolution (builderPositions i [strategy]) (memo w) w)
  | Throw e =>
      (Throw e, afterResolution (builderPositions i [strategy]) (memo w) w)
  end.
Proof.
  cbn [evaluateFrom]. unfold mbind, Run_bind, bind.
  rewrite evaluateBranch_run.
  destruct (evaluatesTo (env w) strategy) as [b|e]; [|done].
  destruct (branchTruthy b); done.
Qed.

Lemma evaluateFrom_skip pre : forall i rest w,
  forallb (yieldsEmpty (env w)) pre = true ->
  evaluateFrom i (pre ++ rest) w =
  evaluateFrom (i + List.length pre)%nat rest
    (afterResolution (builderPositions i pre) (memo w) w).
Proof.
  induction pre as [|s pre IH]; intros i rest w H.
  - simpl. by rewrite Nat.add_0_r, afterResolution_nil.
  - simpl in H. apply andb_prop in H as [Hs Hpre].
    rewrite <- app_comm_cons, evaluateFrom_unfold. unfold yieldsEmpty in Hs.
    destruct (evaluatesTo (env w) s) as [b|e]; [|done].
    apply negb_true_iff in Hs. rewrite Hs.
    rewrite IH by done.
    rewrite afterResolution_app.
    replace (S i + List.length pre)%nat with (i + List.length (s :: pre))%nat
      by (simpl; lia).
    do 2 f_equal.
    change (s :: pre) with ([s] ++ pre).
    rewrite (builderPositions_app i [s] pre). simpl List.length.
    by replace (i + 1)%nat with (S i) by lia.
Qed.

Lemma evaluateFrom_exhausted l i w :
  forallb (yieldsEmpty (env w)) l = true ->
  evaluateFrom i l w =
  (Ok BUndefined, afterResolution (builderPositions i l) (memo w) w).
Proof.
  intros H. rewrite <- (app_nil_r l) at 1. by rewrite evaluateFrom_skip.
Qed.

Lemma evaluateFrom_first pre s post b i w :
  forallb (yieldsEmpty (env w)) pre = true ->
  evaluatesTo (env w) s = Ok b -> branchTruthy b = true ->
  evaluateFrom i (pre ++ s :: post) w =
  (Ok b, afterResolution (builderPositions i (pre ++ [s])) b w).
Proof.
  intros Hpre Hs Hb.
  rewrite evaluateFrom_skip, evaluateFrom_unfold by done.
  simpl env. rewrite Hs, Hb, afterResolution_app, builderPositions_app. done.
Qed.

Section FetchProps.
Variable getCurrentBranchName : Env -> Outcome BranchStrategyValue.

Lemma getFetchProps_memo options w :
  branchTruthy (memo w) = true ->
  getFetchProps getCurrentBranchName options w = (Ok (branchName (memo w)), w).
Proof.
  intros H. unfold getFetchProps, mbind, Run_bind, bind, evaluateThunk.
  rewrite H. simpl. by rewrite H.
Qed.

Lemma getFetchProps_exhausted l w :
  branchTruthy (memo w) = false ->
  forallb (yieldsEmpty (env w)) l = true ->
  getFetchProps getCurrentBranchName {| Client.branch := Some (Several l) |} w =
  (Throw (JsError "Unable to resolve branch value"),
   afterResolution (builderPositions 0 l) (memo w) w).
Proof.
  intros Hm H.
  unfold getFetchProps, mbind, Run_bind, bind, evaluateThunk, branchThunk,
    Client.evaluateBranch.
  simpl. rewrite Hm. unfold mbind, Run_bind, bind. rewrite Hm.
  by rewrite evaluateFrom_exhausted.
Qed.

Lemma getFetchProps_first pre s post b w :
  branchTruthy (memo w) = false ->
  forallb (yieldsEmpty (env w)) pre = true ->
  evaluatesTo (env w) s = Ok b -> branchTruthy b = true ->
  getFetchProps getCurrentBranchName
    {| Client.branch := Some (Several (pre ++ s :: post)) |} w =
  (Ok (branchName b), afterResolution (builderPositions 0 (pre ++ [s])) b w).
Proof.
  intros Hm Hpre Hs Hb.
  unfold getFetchProps, mbind, Run_bind, bind, evaluateThunk, branchThunk,
    Client.evaluateBranch.
  simpl. rewrite Hm. unfold mbind, Run_bind, bind. rewrite Hm.
  rewrite (evaluateFrom_first _ _ _ b) by done.
  rewrite Hb. simpl. by rewrite Hb.
Qed.

Lemma getFetchProps_Ok options w b w' :
  getFetchProps getCurrentBranchName options w = (Ok b, w') ->
  branchTruthy (memo w') = true /\ branchName (memo w') = b.
Proof.
  unfold getFetchProps, mbind, Run_bind, bind, evaluateThunk.
  destruct (branchTruthy (memo w)) eqn:Hm.
  - simpl. rewrite Hm. simpl. by intros [= <- <-].
  - unfold mbind, Run_bind, bind.
    destruct (branchThunk getCurrentBranchName options w) as [[v|e] w0]; [|done].
    destruct (branchTruthy v) eqn:Hv; simpl; rewrite ?Hv; simpl; [|done].
    unfold ret. by intros [= <- <-].
Qed.
End FetchProps.

End ClientFacts.

Module ResolutionClaims.
Import Legacy BranchFacts ClientFacts.

(** C7: with no branch resolved yet, the strategies are evaluated in
    order and the first non-empty value wins (the builders after it are
    not run); over [[undefined, "", resolverReturning("main")]] that is
    ["main"]; when every strategy yields an empty value, resolution
    throws "Unable to resolve branch value" and [read], [create] and
    [getPaginated] fail without handing any request to the transport.
    The same holds for [#getFetchProps] of the plugin based client. *)
Theorem branch_resolution_first_non_empty (c : BaseClient) (w : World) :
  branchTruthy (memo w) = false ->
  (strategiesOf (branch (options c)) = strategies1 ->
     fst (getBranch c w) = Ok "main")
  /\ (forall pre s post b,
        strategiesOf (branch (options c)) = pre ++ s :: post ->
        forallb (yieldsEmpty (env w)) pre = true ->
        evaluatesTo (env w) s = Ok b -> branchTruthy b = true ->
        getBranch c w =
          (Ok (branchName b),
           afterResolution (builderPositions 0 (pre ++ [s])) b w)
        /\ forall getCurrentBranchName,
             Client.getFetchProps getCurrentBranchName
               {| Client.branch := Some (Several (pre ++ s :: post)) |} w =
             (Ok (branchName b),
              afterResolution (builderPositions 0 (pre ++ [s])) b w))
  /\ (forallb (yieldsEmpty (env w)) (strategiesOf (branch (options c))) = true ->
        fst (getBranch c w) = Throw (JsError "Unable to resolve branch value")
        /\ requests (snd (getBranch c w)) = requests w
        /\ (forall getCurrentBranchName,
              fst (Client.getFetchProps getCurrentBranchName
                     {| Client.branch :=
                          Some (Several (strategiesOf (branch (options c)))) |} w)
              = Throw (JsError "Unable to resolve branch value"))
        /\ forall regexExec table v q page,
             ((exists e, fst (read regexExec c table v w) = Throw e)
              /\ requests (snd (read regexExec c table v w)) = requests w)
             /\ ((exists e, fst (create regexExec c table v w) = Throw e)
                 /\ requests (snd (create regexExec c table v w)) = requests w)
             /\ ((exists e, fst (getPaginated regexExec c q page w) = Throw e)
                 /\ requests (snd (getPaginated regexExec c q page w)) = requests w)).
Proof.
  intros Hm. split; [|split].
  - intros Hs. unfold getBranch. rewrite Hm, Hs.
    unfold strategies1. rewrite !resolveFrom_unfold. done.
  - intros pre s post b Hs Hpre Hv Hb. split.
    + unfold getBranch. rewrite Hm, Hs. by apply resolveFrom_first.
    + intros gcbn. by apply getFetchProps_first.
  - intros Hall.
    assert (getBranch c w =
            (Throw (JsError "Unable to resolve branch value"),
             afterResolution (builderPositions 0 (strategiesOf (branch (options c))))
               (memo w) w)) as Hg.
    { unfold getBranch. rewrite Hm. by apply resolveFrom_exhausted. }
    rewrite Hg. split; [done|]. split; [done|]. split.
    + intros gcbn. by rewrite getFetchProps_exhausted.
    + intros regexExec table v q page.
      assert (exists e w', getBranch c w = (Throw e, w') /\ requests w' = requests w)
        as Hex by (rewrite Hg; eauto).
      split; [by apply read_no_request|].
      split; [by apply create_no_request | by apply getPaginated_no_request].
Qed.

Lemma branch_resolution_first_non_empty_witness :
  fst (getBranch client1 (world1 [])) = Ok "main"
  /\ getBranch client1 (world1 []) =
       (Ok "main", afterResolution [2%nat] (BString "main") (world1 []))
  /\ fst (getBranch client2 (world1 [Ok VNull]))
     = Throw (JsError "Unable to resolve branch value")
  /\ requests (snd (create regexExec1 client2 "users" (VObj false [])
                      (world1 [Ok VNull]))) = [].
Proof.
  destruct (branch_resolution_first_non_empty client1 (world1 []) eq_refl)
    as (H1 & H2 & _).
  destruct (branch_resolution_first_non_empty client2 (world1 [Ok VNull]) eq_refl)
    as (_ & _ & H3).
  destruct (H3 eq_refl) as (H4 & _ & _ & H5).
  split; [exact (H1 eq_refl)|].
  split.
  - exact (proj1 (H2 [Literal BUndefined; Literal (BString "")]
                     (Builder (fun _ => Ok (BString "main"))) []
                     (BString "main") eq_refl eq_refl eq_refl eq_refl)).
  - split; [exact H4|].
    destruct (H5 regexExec1 "users" (VObj false [])
                (mkQuery "users" None None None None None) None) as (_ & [_ H6] & _).
    exact H6.
Defined.

(** C8: once [getBranch] has resolved a branch, the value sits in the
    client's [branch] field, and every later call, whatever the sources,
    the strategy list or the rest of the world have become, returns that
    value and leaves the world untouched: no builder runs and the field
    is not written again.  Likewise for [#getFetchProps]. *)
Theorem branch_memoized (c : BaseClient) (w w1 : World) (b : string) :
  getBranch c w = (Ok b, w1) ->
  branchTruthy (memo w1) = true
  /\ branchName (memo w1) = b
  /\ (forall c' w2, memo w2 = memo w1 -> getBranch c' w2 = (Ok b, w2))
  /\ (forall getCurrentBranchName options w2,
        memo w2 = memo w1 ->
        Client.getFetchProps getCurrentBranchName options w2 = (Ok b, w2)).
Proof.
  intros H. apply getBranch_Ok in H as [Ht Hn].
  split; [done|]. split; [done|]. split.
  - intros c' w2 Hw. rewrite getBranch_memo; rewrite Hw; [by rewrite Hn | done].
  - intros gcbn o w2 Hw. rewrite getFetchProps_memo; rewrite Hw; [by rewrite Hn | done].
Qed.

Lemma branch_memoized_witness :
  getBranch client1 (world1 []) =
    (Ok "main", afterResolution [2%nat] (BString "main") (world1 []))
  /\ getBranch
       {| options := {| databaseURL := None; branch := Several []; apiKey := "" |};
          links := ∅ |}
       {| env := {[ "XATA_BRANCH" := "other" ]}; memo := BString "main";
          builderCalls := [2%nat]; requests := []; responses := [] |}
     = (Ok "main",
        {| env := {[ "XATA_BRANCH" := "other" ]}; memo := BString "main";
           builderCalls := [2%nat]; requests := []; responses := [] |}).
Proof.
  assert (getBranch client1 (world1 []) =
          (Ok "main", afterResolution [2%nat] (BString "main") (world1 []))) as H
    by reflexivity.
  split; [exact H|].
  destruct (branch_memoized client1 (world1 []) _ "main" H) as (_ & _ & H3 & _).
  apply H3. reflexivity.
Defined.


(** The follow-up read always resolves to an object: hydration builds one
    whatever the transport answered. *)
Lemma hydrate_truthy links table object : truthy (hydrate links table object) = true.
Proof.
  pose proof (HydrationFacts.hydrate_total links table object) as H.
  rewrite HydrationFacts.initObject_unfold in H.
  destruct (initLinks _ _ _); simpl in H; [|done].
  by injection H as <-.
Qed.

Lemma read_truthy regexExec c table recordId w r w' :
  read regexExec c table recordId w = (Ok r, w') -> truthy r = true.
Proof.
  unfold read, mbind, Run_bind, bind.
  destruct (getWorkspaceId regexExec c w) as [[ws|e] w0]; [|done].
  destruct (getBranch c w0) as [[br|e] w1]; [|done].
  destruct (request _ w1) as [[response|e] w2]; [|done].
  intros [= <- <-]. apply hydrate_truthy.
Qed.

(** [create] is the insert followed by the read: its guard never fires. *)
Lemma create_without_guard regexExec c table object w :
  create regexExec c table object w =
  (workspace ← getWorkspaceId regexExec c;
   branch ← getBranch c;
   response ← request (InsertRecord workspace branch table (transformObjectLinks object));
   id ← field response "id";
   read regexExec c table id) w.
Proof.
  unfold create, mbind, Run_bind, bind.
  destruct (getWorkspaceId regexExec c w) as [[ws|e] w0]; [|done].
  destruct (getBranch c w0) as [[br|e] w1]; [|done].
  destruct (request _ w1) as [[response|e] w2]; [|done].
  destruct (field response "id" w2) as [[id|e] w3]; [|done].
  destruct (read regexExec c table id w3) as [[r|e] w4] eqn:R; [|done].
  by rewrite (read_truthy _ _ _ _ _ _ _ R).
Qed.

(** C9 (as the code runs it): the insert succeeds and the follow-up read
    of the inserted id is answered with nothing ([null]); [create] does
    not throw "The server failed to save the record" but resolves to the
    record that hydration builds from the empty answer.  When the
    transport rejects the read instead (not found), it is the transport
    error that surfaces. *)
Theorem create_follow_up_read_empty :
  let answers := [Ok (VObj false [("id", (VStr "rec_1", true))]); Ok VNull] in
  let object := VObj false [("name", (VStr "x", true))] in
  let r := create regexExec1 client1 "users" object (world1 answers) in
  requests (snd r) =
    [InsertRecord "ws" "main" "users" object;
     GetRecord "ws" "main" "users" (VStr "rec_1")]
  /\ fst r = Ok (VObj true [("read", (VFun MRead "users" VUndef, false));
                            ("update", (VFun MUpdate "users" VUndef, false));
                            ("delete", (VFun MDelete "users" VUndef, false))])
  /\ fst r ≠ Throw (JsError "The server failed to save the record")
  /\ fst (create regexExec1 client1 "users" object
            (world1 [Ok (VObj false [("id", (VStr "rec_1", true))]);
                     Throw (TransportError 404)]))
     = Throw (TransportError 404).
Proof. vm_compute. repeat split. discriminate. Qed.

End ResolutionClaims.

(** ** The query builder *)

Module BuilderFacts.
Import Schema.

Lemma withStore_id w : withStore (store w) w = w.
Proof. by destruct w. Qed.

Lemma getKey_setKey_same ps k v : getKey (setKey ps k v) k = v.
Proof.
  unfold getKey. induction ps as [|[k' v'] ps IH]; simpl.
  - by rewrite String.eqb_refl.
  - destruct (String.eqb k' k) eqn:E; simpl; rewrite E; [done | apply IH].
Qed.

Lemma setKey_getKey_id ps k v :
  lookupKey ps k = Some v -> setKey ps k v = ps.
Proof.
  induction ps as [|[k' v'] ps IH]; simpl; [done|].
  destruct (String.eqb k' k) eqn:E.
  - by intros [= ->].
  - intros H. by rewrite IH.
Qed.

Lemma alter_last {A} (f : A -> A) (σ : list A) x :
  alter f (List.length σ) (σ ++ [x]) = σ ++ [f x].
Proof. induction σ as [|y σ IH]; simpl; [done | by f_equal]. Qed.

Lemma lookup_last {A} (σ : list A) x : (σ ++ [x]) !! List.length σ = Some x.
Proof. by apply list_lookup_middle. Qed.

(** One [inherit] step on the object just allocated at the end of the
    store. *)
Lemma inherit_fresh σ own k (parent : option loc) w :
  (forall l, parent = Some l -> (l < List.length σ)%nat) ->
  inherit (List.length σ) (Some (List.length σ)) parent k (withStore (σ ++ [own]) w) =
  (Ok tt,
   withStore (σ ++ [setKey own k
                      (getKey own k ??
                       match parent with
                       | Some l => getKey (default [] (σ !! l)) k
                       | None => VUndef
                       end)]) w).
Proof.
  intros Hp. unfold inherit, mbind, Run_bind, bind, readKey, writeKey, withStore.
  simpl. rewrite alter_last, lookup_last. simpl.
  destruct parent as [l|]; [|done].
  by rewrite lookup_app_l by (by apply Hp).
Qed.

Lemma withStore_withStore σ σ' w : withStore σ (withStore σ' w) = withStore σ w.
Proof. done. Qed.

(** [new Query(..., { filter: { [k]: arr } }, this.#data)]: one object is
    allocated; nothing else in the store is written to. *)
Lemma withFilter_run q k arr w :
  (forall l, filter (data q) = Some l -> (l < List.length (store w))%nat) ->
  withFilter q k arr w =
  (Ok {| table := table q; repository := repository q;
         data := childOptions (List.length (store w)) noOptions q |},
   withStore (store w ++ [inherited [(k, VArr arr)] (filterProps (store w) q)]) w).
Proof.
  intros Hwf. unfold withFilter, newQuery.
  unfold mbind at 1. unfold Run_bind, bind at 1. unfold alloc at 1.
  cbn [filter].
  unfold mbind at 1. unfold Run_bind, bind at 1. unfold ret at 1.
  set (σ := store w) in *.
  set (w1 := {| store := σ ++ [[(k, VArr arr)]]; requests := requests w;
                responses := responses w |}).
  change w1 with (withStore (σ ++ [[(k, VArr arr)]]) w).
  unfold mbind, Run_bind, bind. cbn [option_bind].
  do 4 (rewrite inherit_fresh by (intros l Hl; apply Hwf, Hl); cbv beta iota).
  unfold ret, childOptions, inherited, filterProps, withStore. simpl.
  destruct (filter (data q)); done.
Qed.


Lemma filtersOf_run queries : forall ls w,
  map (fun s => filter (data s)) queries = map Some ls ->
  filtersOf queries w = (Ok (map VRef ls), w).
Proof.
  unfold filtersOf, getQueryOptions.
  induction queries as [|s queries IH]; intros [|l ls] w; try done.
  intros [= Hs Hq]. cbn [mapM].
  rewrite bind_run, Hs. unfold ret at 1. cbv beta iota.
  by rewrite bind_run, (IH ls w Hq).
Qed.



Lemma compact_app l l' : compact (l ++ l') = compact l ++ compact l'.
Proof. unfold compact. apply List.filter_app. Qed.

Lemma compact_id l :
  forallb (fun v => negb (nullish v)) l = true -> compact l = l.
Proof.
  unfold compact. induction l as [|v l IH]; simpl; [done|].
  intros [H1 H2]%andb_prop. rewrite H1. by rewrite IH.
Qed.

Lemma constraintsOf_defined args :
  forallb (fun v => negb (nullish v)) (constraintsOf args) = true.
Proof.
  destruct args as [a|a b]; simpl; [|done].
  by induction a as [|[k v] a IH].
Qed.

Lemma compact_constraintsOf args : compact (constraintsOf args) = constraintsOf args.
Proof. apply compact_id, constraintsOf_defined. Qed.

(** The conjunction list that [filter] starts from. *)
Lemma compact_flat_all v :
  listTyped v = true -> compact (flat [v]) = conjuncts v.
Proof.
  destruct v; try done.
  unfold flat. cbn [map concat conjuncts listTyped]. rewrite app_nil_r.
  apply compact_id.
Qed.

Lemma conjuncts_defined v :
  listTyped v = true -> forallb (fun v => negb (nullish v)) (conjuncts v) = true.
Proof. by destruct v. Qed.


Lemma inherited_any x p :
  inherited [("$any", VArr x)] p =
  [("$any", VArr x); ("$all", getKey p "$all");
   ("$not", getKey p "$not"); ("$none", getKey p "$none")].
Proof. reflexivity. Qed.


Lemma inherited_not x p :
  inherited [("$not", VArr x)] p =
  [("$not", VArr x); ("$any", getKey p "$any");
   ("$all", getKey p "$all"); ("$none", getKey p "$none")].
Proof. reflexivity. Qed.

Lemma inherited_none x p :
  inherited [("$none", VArr x)] p =
  [("$none", VArr x); ("$any", getKey p "$any");
   ("$all", getKey p "$all"); ("$not", getKey p "$not")].
Proof. reflexivity. Qed.

Lemma wellFormed_inv σ q :
  wellFormed σ q = true <->
  exists l, filter (data q) = Some l
            /\ (l < List.length σ)%nat
            /\ nullish (columns (data q)) = false
            /\ listTyped (getKey (filterProps σ q) "$all") = true
            /\ hasCombinators (filterProps σ q) = true
            /\ closedData (List.length σ) (data q) = true.
Proof.
  unfold wellFormed, filterProps. destruct (filter (data q)) as [l|].
  - rewrite !andb_true_iff, bool_decide_eq_true, negb_true_iff.
    split.
    + intros [[[[? ?] ?] ?] ?]. eauto 10.
    + intros (l' & [= <-] & ? & ? & ? & ? & ?). done.
  - split; [done | by intros (l & ? & _)].
Qed.

Lemma wellFormed_inStore σ q :
  wellFormed σ q = true ->
  forall l, filter (data q) = Some l -> (l < List.length σ)%nat.
Proof.
  intros (l' & Hl' & ? & _)%wellFormed_inv l Hl. congruence.
Qed.


Lemma filterProps_child σ own t r opts q :
  filterProps (σ ++ [own])
    {| table := t; repository := r; data := childOptions (List.length σ) opts q |}
  = own.
Proof. unfold filterProps. cbn [filter data childOptions]. by rewrite lookup_last. Qed.

Lemma refsBelow_mono v : forall n m,
  (n <= m)%nat -> refsBelow n v = true -> refsBelow m v = true.
Proof.
  induction v as [| | | | |l IH|ps IH|l] using Val_nested_ind; intros n' m Hnm; simpl;
    try done.
  - rewrite !forallb_forall. intros H x Hx. rewrite Forall_forall in IH.
    apply (IH x (proj2 (list_elem_of_In _ _) Hx) n' m Hnm), H, Hx.
  - rewrite !forallb_forall. intros H x Hx. rewrite Forall_forall in IH.
    apply (IH x (proj2 (list_elem_of_In _ _) Hx) n' m Hnm), H, Hx.
  - rewrite !bool_decide_eq_true. lia.
Qed.

Lemma refsBelow_coalesce n a b :
  refsBelow n a = true -> refsBelow n b = true -> refsBelow n (a ?? b) = true.
Proof. unfold coalesce. by destruct (nullish a). Qed.

Lemma closedData_child n m f opts q :
  (n <= m)%nat ->
  closedData n opts = true -> closedData n (data q) = true ->
  closedData m (childOptions f opts q) = true.
Proof.
  unfold closedData. rewrite !andb_true_iff.
  intros Hnm [[H1 H2] H3] [[H4 H5] H6]. cbn [childOptions sort columns pagination].
  repeat split; apply (refsBelow_mono _ n m Hnm);
    repeat apply refsBelow_coalesce; done.
Qed.

Lemma closedData_noOptions n : closedData n noOptions = true.
Proof. done. Qed.

Lemma closedData_mono n m d :
  (n <= m)%nat -> closedData n d = true -> closedData m d = true.
Proof.
  unfold closedData. rewrite !andb_true_iff. intros Hnm [[H1 H2] H3].
  repeat split; by apply (refsBelow_mono _ n m Hnm).
Qed.

Lemma refsBelow_flat n l :
  forallb (refsBelow n) l = true -> forallb (refsBelow n) (flat l) = true.
Proof.
  unfold flat. induction l as [|v l IH]; [done|]. simpl.
  rewrite forallb_app, !andb_true_iff. intros [Hv Hl]. split; [|by apply IH].
  destruct v; simpl in *; rewrite ?andb_true_r; done.
Qed.

Lemma columns_inherited q opts :
  nullish (columns opts ?? columns (data q) ?? VArr [VStr "*"]) = false.
Proof.
  unfold coalesce.
  destruct (nullish (columns opts)) eqn:E1.
  - destruct (nullish (columns (data q))) eqn:E2; [done | by rewrite E2].
  - by rewrite E1, E1.
Qed.

(** The query built on a well formed [q] with a fresh filter object. *)
Lemma wellFormed_child σ own t r opts q :
  wellFormed σ q = true ->
  hasCombinators own = true ->
  listTyped (getKey own "$all") = true ->
  closedData (List.length σ) opts = true ->
  wellFormed (σ ++ [own])
    {| table := t; repository := r; data := childOptions (List.length σ) opts q |} = true.
Proof.
  intros (pf & _ & _ & _ & _ & _ & Hcl)%wellFormed_inv Hk Ha Ho.
  apply wellFormed_inv. eexists. split; [reflexivity|].
  rewrite filterProps_child, length_app. simpl.
  split; [lia|]. split; [apply columns_inherited|]. split; [done|]. split; [done|].
  apply (closedData_child (List.length σ)); [lia | done | done].
Qed.


Lemma baseQuery_run : baseQuery emptyWorld = (Ok base0, world0).
Proof. reflexivity. Qed.






Lemma snapshot_object fuel σ ps j :
  snapshot fuel σ (VObj ps) = Some j -> exists ps', j = JObj ps'.
Proof.
  destruct fuel; simpl;
    (destruct (mapM _ ps) as [ps'|]; simpl; [|done]; intros [= <-]; eauto).
Qed.



End BuilderFacts.

(** ** Immutability of built queries *)

Module ImmutabilityFacts.
Import Schema BuilderFacts.

Lemma getKey_setKey_other ps k k' v :
  k ≠ k' -> getKey (setKey ps k v) k' = getKey ps k'.
Proof.
  intros Hne. unfold getKey. induction ps as [|[k0 v0] ps IH]; simpl.
  - destruct (String.eqb k k') eqn:E; [by apply String.eqb_eq in E | done].
  - destruct (String.eqb k0 k) eqn:E; simpl.
    + apply String.eqb_eq in E as ->.
      destruct (String.eqb k k') eqn:E'; [by apply String.eqb_eq in E' | done].
    + destruct (String.eqb k0 k'); [done | apply IH].
Qed.

Lemma getKey_setKey_self ps k k' : getKey (setKey ps k (getKey ps k)) k' = getKey ps k'.
Proof.
  destruct (decide (k = k')) as [->|Hne].
  - apply getKey_setKey_same.
  - by apply getKey_setKey_other.
Qed.

(** Writing the combinators back changes the value under no key. *)
Lemma getKey_refreshed ps k : getKey (refreshed ps) k = getKey ps k.
Proof. unfold refreshed. simpl. by rewrite !getKey_setKey_self. Qed.

Lemma inherit_alias pf k w :
  inherit pf None (Some pf) k w =
  (Ok tt, withStore (alter (fun ps => setKey ps k (getKey ps k)) pf (store w)) w).
Proof.
  unfold inherit, mbind, Run_bind, bind, readKey, writeKey, withStore. simpl.
  do 2 f_equal. apply list_alter_ext; [|done].
  intros ps Hps. by rewrite Hps.
Qed.

(** A query built without filter data shares its parent's filter object. *)
Lemma newQuery_alias_run r t d pd pf w :
  filter d = None -> filter pd = Some pf ->
  newQuery r t d (Some pd) w =
  (Ok {| table := t; repository := r;
         data := {| filter := Some pf;
                    sort := sort d ?? sort pd;
                    columns := columns d ?? columns pd ?? VArr [VStr "*"];
                    pagination := pagination d ?? pagination pd;
                    cache := cache d ?? cache pd |} |},
   withStore (alter refreshed pf (store w)) w).
Proof.
  intros Hd Hp. unfold newQuery. rewrite Hd. simpl. rewrite Hp.
  rewrite bind_run. unfold ret at 1. cbv beta iota.
  do 4 (rewrite bind_run, inherit_alias; cbv beta iota;
        try rewrite withStore_withStore).
  unfold ret, withStore. simpl. rewrite !list_alter_alter_eq. done.
Qed.


Lemma setKey_present ps k v :
  lookupKey ps k = Some v -> setKey ps k v = ps.
Proof.
  induction ps as [|[k' v'] ps IH]; simpl; [done|].
  destruct (String.eqb k' k) eqn:E.
  - by intros [= ->].
  - intros H. by rewrite IH.
Qed.

Lemma setKey_getKey_present ps k :
  match lookupKey ps k with Some _ => true | None => false end = true ->
  setKey ps k (getKey ps k) = ps.
Proof.
  unfold getKey. destruct (lookupKey ps k) as [v|] eqn:E; [|done].
  intros _. by apply setKey_present.
Qed.

(** On an object that has the four combinators the write-back changes
    nothing at all. *)
Lemma refreshed_id ps : hasCombinators ps = true -> refreshed ps = ps.
Proof.
  unfold hasCombinators, refreshed. simpl.
  rewrite !andb_true_iff. intros (H1 & H2 & H3 & H4 & _).
  rewrite (setKey_getKey_present ps "$any") by done.
  rewrite (setKey_getKey_present ps "$all") by done.
  rewrite (setKey_getKey_present ps "$not") by done.
  by rewrite (setKey_getKey_present ps "$none").
Qed.

Lemma alter_refreshed_id σ q pf :
  filter (data q) = Some pf ->
  hasCombinators (filterProps σ q) = true ->
  alter refreshed pf σ = σ.
Proof.
  intros Hpf Hk. unfold filterProps in Hk. rewrite Hpf in Hk.
  apply list_eq. intros i. rewrite list_lookup_alter.
  destruct (decide (pf = i)) as [->|]; [|done].
  destruct (σ !! i) as [ps|] eqn:E; [|done]. simpl in *.
  by rewrite refreshed_id.
Qed.

(** Allocation leaves the queries of the store as they are. *)
Lemma wellFormed_append σ new x :
  wellFormed σ x = true -> wellFormed (σ ++ new) x = true.
Proof.
  rewrite !wellFormed_inv. intros (l & Hl & Hlt & Hc & Ha & Hk & Hcl).
  exists l. unfold filterProps in *. rewrite Hl in *.
  rewrite lookup_app_l, length_app by done.
  repeat split; try done; [lia|].
  apply (closedData_mono (List.length σ)); [lia | done].
Qed.

Lemma subqueries_filters σ queries :
  Forall (fun s => wellFormed σ s = true) queries ->
  exists ls, map (fun s => filter (data s)) queries = map Some ls
             /\ forallb (refsBelow (List.length σ)) (map VRef ls) = true.
Proof.
  induction 1 as [|s queries Hs _ (ls & IH & Hls)]; [by exists []|].
  apply wellFormed_inv in Hs as (l & Hl & Hlt & _).
  exists (l :: ls). simpl. rewrite Hl, IH, Hls, andb_true_r.
  split; [done | by apply bool_decide_eq_true].
Qed.

Lemma refsBelow_getKey n ps k :
  forallb (fun p => refsBelow n (snd p)) ps = true -> refsBelow n (getKey ps k) = true.
Proof.
  unfold getKey. induction ps as [|[k' v] ps IH]; [done|]. simpl.
  rewrite andb_true_iff. intros [Hv Hps]. destruct (String.eqb k' k); [done | by apply IH].
Qed.

Lemma refsBelow_setKey n ps k v :
  forallb (fun p => refsBelow n (snd p)) ps = true -> refsBelow n v = true ->
  forallb (fun p => refsBelow n (snd p)) (setKey ps k v) = true.
Proof.
  intros Hps Hv. induction ps as [|[k' v'] ps IH]; simpl in *; [by rewrite Hv|].
  apply andb_true_iff in Hps as [Hv' Hps].
  destruct (String.eqb k' k); simpl; [by rewrite Hv, Hps | by rewrite Hv', IH].
Qed.

Lemma refsBelow_inherited n own parent :
  forallb (fun p => refsBelow n (snd p)) own = true ->
  forallb (fun p => refsBelow n (snd p)) parent = true ->
  forallb (fun p => refsBelow n (snd p)) (inherited own parent) = true.
Proof.
  intros Ho Hp. unfold inherited.
  generalize ["$any"; "$all"; "$not"; "$none"]. intros ks. revert own Ho.
  induction ks as [|k ks IH]; intros own Ho; [done|]. cbn [foldl].
  apply IH, refsBelow_setKey; [done|].
  by apply refsBelow_coalesce; apply refsBelow_getKey.
Qed.

Lemma refsBelow_compact n l :
  forallb (refsBelow n) l = true -> forallb (refsBelow n) (compact l) = true.
Proof.
  unfold compact. induction l as [|v l IH]; [done|]. simpl.
  rewrite andb_true_iff. intros [Hv Hl].
  destruct (negb (nullish v)); simpl; [rewrite Hv|]; by apply IH.
Qed.

(** The objects of an ordered store refer below its end. *)
Lemma ordered_lookup σ l ps n :
  ordered σ -> σ !! l = Some ps -> (List.length σ <= n)%nat ->
  forallb (fun p => refsBelow n (snd p)) ps = true.
Proof.
  intros Ho Hl Hn. pose proof (Ho l ps Hl) as Hps.
  apply lookup_lt_Some in Hl.
  rewrite forallb_forall in *. intros x Hx.
  apply (refsBelow_mono _ l n); [lia | by apply Hps].
Qed.

Lemma ordered_filterProps σ q :
  ordered σ ->
  forallb (fun p => refsBelow (List.length σ) (snd p)) (filterProps σ q) = true.
Proof.
  intros Ho. unfold filterProps.
  destruct (filter (data q)) as [l|]; [|done].
  destruct (σ !! l) as [ps|] eqn:E; [|done]. simpl.
  by apply (ordered_lookup σ l).
Qed.

(** Allocation keeps the store ordered when the new object refers only
    to what was there. *)
Lemma ordered_alloc σ own :
  ordered σ ->
  forallb (fun p => refsBelow (List.length σ) (snd p)) own = true ->
  ordered (σ ++ [own]).
Proof.
  intros Ho Hown l ps Hl.
  destruct (decide (l < List.length σ)%nat) as [Hlt|Hge].
  - rewrite lookup_app_l in Hl by done. by apply Ho.
  - pose proof (lookup_lt_Some _ _ _ Hl) as Hlen. rewrite length_app in Hlen.
    simpl in Hlen. assert (l = List.length σ) as -> by lia.
    rewrite lookup_last in Hl. by injection Hl as <-.
Qed.

Lemma listTyped_refs ls : listTyped (VArr (map VRef ls)) = true.
Proof. simpl. by induction ls. Qed.

(** Every call of the builder returns a query as the constructor leaves
    them; the store only grows, by the filter object of the new query if
    it has one of its own, and nothing is requested.  An ordered store
    stays ordered when the constraints passed in refer only to objects
    it holds. *)
Theorem builder_immutable (q : Query) (c : Call) (w : World) :
  wellFormed (store w) q = true ->
  Forall (fun s => wellFormed (store w) s = true) (subqueries c) ->
  exists q' new,
    call q c w = (Ok q', withStore (store w ++ new) w)
    /\ wellFormed (store w ++ new) q' = true
    /\ (forall x, wellFormed (store w) x = true ->
          wellFormed (store w ++ new) x = true
          /\ filterProps (store w ++ new) x = filterProps (store w) x)
    /\ (ordered (store w) ->
        forallb (refsBelow (List.length (store w))) (callValues c) = true ->
        ordered (store w ++ new)).
Proof.
  intros Hwf Hsub.
  pose proof (wellFormed_inStore _ _ Hwf) as Hin.
  pose proof Hwf as (pf & Hpf & Hlt & Hcol & Hall & Hkeys & Hclosed)%wellFormed_inv.
  assert (forall new x, wellFormed (store w) x = true ->
            wellFormed (store w ++ new) x = true
            /\ filterProps (store w ++ new) x = filterProps (store w) x) as Hframe.
  { intros new x Hx. split; [by apply wellFormed_append|].
    pose proof (wellFormed_inStore _ _ Hx) as Hxin.
    unfold filterProps. destruct (filter (data x)) as [l|]; [|done].
    by rewrite lookup_app_l by (by apply Hxin). }
  assert (forall d,
            filter d = None ->
            closedData (List.length (store w)) d = true ->
            exists q' new,
              newQuery (repository q) (table q) d (Some (data q)) w =
                (Ok q', withStore (store w ++ new) w)
              /\ wellFormed (store w ++ new) q' = true
              /\ (ordered (store w) -> ordered (store w ++ new))) as Halias.
  { intros d Hd Hc. eexists _, [].
    rewrite (newQuery_alias_run _ _ _ _ pf) by done.
    rewrite (alter_refreshed_id _ q) by done. rewrite app_nil_r.
    split; [reflexivity|]. split; [|done].
    apply wellFormed_inv. exists pf. unfold filterProps in *. cbn [filter data columns].
    rewrite Hpf in *. repeat split; try done; [apply columns_inherited|].
    by apply (closedData_child (List.length (store w)) _ pf d q). }
  assert (forall k, k ∈ ["$any"; "$all"; "$not"; "$none"] <->
                    k = "$any" \/ k = "$all" \/ k = "$not" \/ k = "$none") as Hmem.
  { intros k. rewrite !elem_of_cons, elem_of_nil. tauto. }
  assert (forall k arr,
            k ∈ ["$any"; "$all"; "$not"; "$none"] ->
            listTyped (VArr arr) = true ->
            exists q' new,
              withFilter q k arr w = (Ok q', withStore (store w ++ new) w)
              /\ wellFormed (store w ++ new) q' = true
              /\ (ordered (store w) ->
                  forallb (refsBelow (List.length (store w))) arr = true ->
                  ordered (store w ++ new))) as Hfresh.
  { intros k arr Hk Harr. eexists _, [_].
    rewrite withFilter_run by done. split; [reflexivity|]. split.
    - apply wellFormed_child; [done| | |done];
        apply Hmem in Hk; destruct Hk as [Hk|[Hk|[Hk|Hk]]]; subst k; done.
    - intros Ho Hc. apply ordered_alloc; [done|].
      apply refsBelow_inherited; [|by apply ordered_filterProps].
      cbn [forallb snd refsBelow]. by rewrite Hc. }
  destruct c as [args|queries|queries|queries|queries|col direction|cols|ttl];
    cbn [call subqueries callValues] in *.
  - unfold filter_. rewrite bind_run. unfold readKey. cbv beta iota.
    destruct (Hfresh "$all"
                (compact (flat [getKey (filterProps (store w) q) "$all"] ++ constraintsOf args)))
      as (q' & new & H1 & H2 & H3).
    { apply Hmem. tauto. }
    { rewrite compact_app, compact_constraintsOf, compact_flat_all by done.
      simpl. rewrite forallb_app, conjuncts_defined, constraintsOf_defined; done. }
    unfold filterProps in H1. rewrite Hpf in H1. rewrite Hpf.
    exists q', new. repeat split; try done; try by apply Hframe.
    intros Ho Hv. apply H3; [done|].
    apply refsBelow_compact. rewrite forallb_app, Hv, andb_true_r.
    apply refsBelow_flat. cbn [forallb]. rewrite andb_true_r.
    by apply refsBelow_getKey, ordered_filterProps.
  - destruct (subqueries_filters _ _ Hsub) as (ls & Hls & Hrefs).
    unfold any. rewrite bind_run, (filtersOf_run _ _ _ Hls).
    destruct (Hfresh "$any" (map VRef ls)) as (q' & new & H1 & H2 & H3);
      [apply Hmem; tauto | apply listTyped_refs | exists q', new; auto].
  - destruct (subqueries_filters _ _ Hsub) as (ls & Hls & Hrefs).
    unfold all. rewrite bind_run, (filtersOf_run _ _ _ Hls).
    destruct (Hfresh "$all" (map VRef ls)) as (q' & new & H1 & H2 & H3);
      [apply Hmem; tauto | apply listTyped_refs | exists q', new; auto].
  - destruct (subqueries_filters _ _ Hsub) as (ls & Hls & Hrefs).
    unfold not_. rewrite bind_run, (filtersOf_run _ _ _ Hls).
    destruct (Hfresh "$not" (map VRef ls)) as (q' & new & H1 & H2 & H3);
      [apply Hmem; tauto | apply listTyped_refs | exists q', new; auto].
  - destruct (subqueries_filters _ _ Hsub) as (ls & Hls & Hrefs).
    unfold none. rewrite bind_run, (filtersOf_run _ _ _ Hls).
    destruct (Hfresh "$none" (map VRef ls)) as (q' & new & H1 & H2 & H3);
      [apply Hmem; tauto | apply listTyped_refs | exists q', new; auto].
  - destruct (Halias
                {| filter := None;
                   sort := VArr (flat [sort (data q) ?? VArr []] ++
                                 [VObj [("column", VStr col);
                                        ("direction", VStr (directionName direction))]]);
                   columns := VUndef; pagination := VUndef; cache := VUndef |})
      as (q' & new & H1 & H2 & H3); [done | | exists q', new; auto].
    unfold closedData. cbn [sort columns pagination refsBelow].
    rewrite forallb_app, refsBelow_flat; [done|].
    cbn [forallb]. rewrite andb_true_r. apply refsBelow_coalesce; [|done].
    unfold closedData in Hclosed. by destruct (refsBelow _ (sort (data q))).
  - destruct (Halias
                {| filter := None; sort := VUndef; columns := VArr (map VStr cols);
                   pagination := VUndef; cache := VUndef |})
      as (q' & new & H1 & H2 & H3); [done | | exists q', new; auto].
    unfold closedData. cbn [sort columns pagination refsBelow].
    rewrite andb_true_r. by induction cols.
  - destruct (Halias
                {| filter := None; sort := VUndef; columns := VUndef;
                   pagination := VUndef; cache := VNum ttl |})
      as (q' & new & H1 & H2 & H3); [done | done | exists q', new; auto].
Qed.

End ImmutabilityFacts.

(** ** The cache key is defined *)

Module KeyFacts.
Import Schema BuilderFacts ImmutabilityFacts.

Lemma inherit_none σ own k w :
  inherit (List.length σ) None None k (withStore (σ ++ [own]) w) =
  (Ok tt, withStore (σ ++ [setKey own k VUndef]) w).
Proof.
  unfold inherit, mbind, Run_bind, bind, readKey, writeKey, withStore.
  simpl. by rewrite alter_last.
Qed.

(** [repository.query()] on any store: a fresh filter object, every
    combinator [undefined], and all columns. *)
Lemma query_run r t w :
  newQuery r t noOptions None w =
  (Ok {| table := t; repository := r;
         data := {| filter := Some (List.length (store w)); sort := VUndef;
                    columns := VArr [VStr "*"];
                    pagination := VUndef; cache := VUndef |} |},
   withStore (store w ++ [[("$any", VUndef); ("$all", VUndef);
                           ("$not", VUndef); ("$none", VUndef)]]) w).
Proof.
  unfold newQuery. cbn [filter noOptions mbind option_bind].
  rewrite bind_run. unfold alloc at 1. cbv beta iota.
  change {| store := store w ++ [[]]; requests := requests w; responses := responses w |}
    with (withStore (store w ++ [[]]) w).
  do 4 (rewrite bind_run, inherit_none; cbv beta iota).
  reflexivity.
Qed.

Lemma query_wellFormed r t w q w' :
  newQuery r t noOptions None w = (Ok q, w') ->
  wellFormed (store w') q = true
  /\ (ordered (store w) -> ordered (store w'))
  /\ forall x, wellFormed (store w) x = true -> wellFormed (store w') x = true.
Proof.
  rewrite query_run. intros [= <- <-]. cbn [store withStore]. split; [|split].
  - apply wellFormed_inv. eexists. split; [reflexivity|].
    unfold filterProps. cbn [filter data]. rewrite lookup_last, length_app. simpl.
    repeat split; try done. lia.
  - intros Ho. by apply ordered_alloc.
  - intros x. apply wellFormed_append.
Qed.

Lemma snapshot_ref fuel σ l :
  snapshot (S fuel) σ (VRef l) =
  ps ← σ !! l;
  JObj <$> mapM (fun p => j ← snapshot fuel σ (snd p); Some (fst p, j)) ps.
Proof. reflexivity. Qed.

Lemma snapshot_arr fuel σ l :
  snapshot fuel σ (VArr l) = JArr <$> mapM (snapshot fuel σ) l.
Proof. by destruct fuel. Qed.

Lemma snapshot_obj fuel σ ps :
  snapshot fuel σ (VObj ps) =
  JObj <$> mapM (fun p => j ← snapshot fuel σ (snd p); Some (fst p, j)) ps.
Proof. by destruct fuel. Qed.

Lemma mapM_pointwise {A B} (f g : A -> option B) l k :
  mapM f l = Some k ->
  Forall (fun x => forall y, f x = Some y -> g x = Some y) l ->
  mapM g l = Some k.
Proof.
  intros E H. revert k E.
  induction H as [|x l Hx _ IH]; [done|]. intros k. cbn [mapM].
  destruct (f x) as [y|] eqn:E; [|done]. rewrite (Hx y eq_refl). simpl.
  destruct (mapM f l) as [k'|]; [|done]. by rewrite (IH k' eq_refl).
Qed.

(** Below the references, a snapshot is made the same way at any fuel. *)
Lemma snapshot_mono_values σ fuel fuel' :
  (forall l j, snapshot fuel σ (VRef l) = Some j -> snapshot fuel' σ (VRef l) = Some j) ->
  forall v j, snapshot fuel σ v = Some j -> snapshot fuel' σ v = Some j.
Proof.
  intros Href.
  induction v as [| | | | |l IH|ps IH|l] using Val_nested_ind; intros j;
    try (by destruct fuel, fuel'); [| |by apply Href].
  - rewrite !snapshot_arr. destruct (mapM (snapshot fuel σ) l) as [k|] eqn:E; [|done].
    by rewrite (mapM_pointwise _ (snapshot fuel' σ) l k E).
  - rewrite !snapshot_obj. destruct (mapM _ ps) as [k|] eqn:E; [|done].
    rewrite (mapM_pointwise _ (fun p => j ← snapshot fuel' σ (snd p); Some (fst p, j))
               ps k E); [done|].
    eapply Forall_impl; [exact IH|]. intros x Hx y. simpl.
    destruct (snapshot fuel σ x.2) as [jx|] eqn:Ex; [|done].
    by rewrite (Hx jx Ex).
Qed.

(** More fuel never changes a snapshot. *)
Lemma snapshot_mono σ : forall fuel fuel' v j,
  (fuel <= fuel')%nat -> snapshot fuel σ v = Some j -> snapshot fuel' σ v = Some j.
Proof.
  induction fuel as [|fuel IHf]; intros fuel' v j Hle;
    apply snapshot_mono_values; clear v j; intros l j; [done|].
  destruct fuel' as [|fuel']; [lia|]. rewrite !snapshot_ref.
  destruct (σ !! l) as [ps|]; [|done]. simpl.
  destruct (mapM _ ps) as [k|] eqn:E; [|done].
  rewrite (mapM_pointwise _ (fun p => j ← snapshot fuel' σ (snd p); Some (fst p, j))
             ps k E); [done|].
  apply Forall_forall. intros x _ y. simpl.
  destruct (snapshot fuel σ x.2) as [jx|] eqn:Ex; [|done].
  by rewrite (IHf fuel' _ jx ltac:(lia) Ex).
Qed.

Lemma mapM_defined {A B} (f : A -> option B) l :
  Forall (fun x => exists y, f x = Some y) l -> exists k, mapM f l = Some k.
Proof.
  induction 1 as [|x l [y Hy] _ [k IH]]; [by exists []|].
  exists (y :: k). cbn [mapM]. by rewrite Hy, IH.
Qed.

(** A value has a snapshot when the references in it have one. *)
Lemma snapshot_total_values σ fuel n :
  (forall l, (l < n)%nat -> exists j, snapshot fuel σ (VRef l) = Some j) ->
  forall v, refsBelow n v = true -> exists j, snapshot fuel σ v = Some j.
Proof.
  intros Href.
  induction v as [| | | | |l IH|ps IH|l] using Val_nested_ind; intros Hv;
    try (by destruct fuel; eexists); cbn [refsBelow] in Hv.
  - rewrite snapshot_arr.
    destruct (mapM_defined (snapshot fuel σ) l) as [k ->]; [|by eexists].
    rewrite forallb_forall in Hv. rewrite Forall_forall in *.
    intros x Hx. apply (IH x Hx), Hv, list_elem_of_In, Hx.
  - rewrite snapshot_obj.
    destruct (mapM_defined (fun p => j ← snapshot fuel σ (snd p); Some (fst p, j)) ps)
      as [k ->]; [|by eexists].
    rewrite forallb_forall in Hv. rewrite Forall_forall in *.
    intros x Hx. destruct (IH x Hx) as [j ->]; [|by eexists].
    apply Hv, list_elem_of_In, Hx.
  - apply Href. by apply bool_decide_eq_true in Hv.
Qed.

(** A value whose references lie below [n <= fuel], in an ordered store
    that holds them, has a snapshot. *)
Lemma snapshot_total σ :
  ordered σ ->
  forall fuel n v,
    (n <= fuel)%nat -> (n <= List.length σ)%nat -> refsBelow n v = true ->
    exists j, snapshot fuel σ v = Some j.
Proof.
  intros Hord. induction fuel as [|fuel IHf]; intros n v Hn Hσ;
    apply snapshot_total_values; intros l Hl; [lia|].
  rewrite snapshot_ref.
  destruct (lookup_lt_is_Some_2 σ l ltac:(lia)) as [ps Hps]. rewrite Hps. simpl.
  destruct (mapM_defined (fun p => j ← snapshot fuel σ (snd p); Some (fst p, j)) ps)
    as [k ->]; [|by eexists].
  pose proof (Hord l ps Hps) as Hc. rewrite forallb_forall in Hc.
  apply Forall_forall. intros x Hx.
  destruct (IHf l (snd x)) as [j ->]; [lia | lia | | by eexists].
  apply Hc, list_elem_of_In, Hx.
Qed.

Lemma refsBelow_orDefault n v d :
  refsBelow n v = true -> refsBelow n d = true -> refsBelow n (orDefault v d) = true.
Proof. by destruct v. Qed.

Lemma refsBelow_keyObject σ q :
  wellFormed σ q = true -> refsBelow (List.length σ) (keyObject q) = true.
Proof.
  intros (l & Hl & Hlt & _ & _ & _ & Hcl)%wellFormed_inv.
  unfold closedData in Hcl. rewrite !andb_true_iff in Hcl. destruct Hcl as [[H1 H2] H3].
  unfold keyObject. rewrite Hl. cbn [refsBelow forallb snd].
  rewrite !refsBelow_orDefault by done. simpl. rewrite andb_true_r.
  by apply bool_decide_eq_true.
Qed.

(** [key()] returns: a well formed query of an ordered store has a key,
    the same at any fuel that covers the store. *)
Theorem key_total σ q fuel :
  ordered σ -> wellFormed σ q = true -> (List.length σ <= fuel)%nat ->
  exists k, key fuel σ q = Some k /\ key (List.length σ) σ q = Some k.
Proof.
  intros Hord Hwf Hfuel.
  destruct (snapshot_total σ Hord (List.length σ) (List.length σ) (keyObject q))
    as [j Hj]; [lia | lia | by apply refsBelow_keyObject |].
  unfold key, resolved. rewrite Hj, (snapshot_mono σ _ fuel _ j Hfuel Hj). simpl.
  destruct (snapshot_object _ _ _ _ Hj) as [ps ->]. eexists. split; reflexivity.
Qed.

End KeyFacts.

(** ** Running queries: pages and iterators *)

Module PaginationFacts.
Import Schema BuilderFacts.

Lemma inherit_run f a b k w :
  exists σ', inherit f a b k w = (Ok tt, withStore σ' w).
Proof. unfold inherit, mbind, Run_bind, bind, readKey, writeKey. simpl. eauto. Qed.

(** The constructor never throws and touches nothing but the store. *)
Lemma newQuery_run r t d p w :
  exists f σ',
    newQuery r t d p w =
    (Ok {| table := t; repository := r;
           data := {| filter := Some f;
                      sort := sort d ?? from_option sort VUndef p;
                      columns := columns d ?? from_option columns VUndef p
                                 ?? VArr [VStr "*"];
                      pagination := pagination d ?? from_option pagination VUndef p;
                      cache := cache d ?? from_option cache VUndef p |} |},
     withStore σ' w).
Proof.
  unfold newQuery.
  assert (exists f σ0,
            match filter d, p ≫= filter with
            | Some l, _ => ret l
            | None, Some l => ret l
            | None, None => alloc []
            end w = (Ok f, withStore σ0 w)) as (f & σ0 & H0).
  { destruct (filter d), (p ≫= filter); unfold ret, alloc, withStore;
      destruct w; simpl; eauto. }
  rewrite bind_run, H0.
  destruct (inherit_run f (filter d) (p ≫= filter) "$any" (withStore σ0 w)) as [σ1 H1].
  rewrite bind_run, H1, withStore_withStore.
  destruct (inherit_run f (filter d) (p ≫= filter) "$all" (withStore σ1 w)) as [σ2 H2].
  rewrite bind_run, H2, withStore_withStore.
  destruct (inherit_run f (filter d) (p ≫= filter) "$not" (withStore σ2 w)) as [σ3 H3].
  rewrite bind_run, H3, withStore_withStore.
  destruct (inherit_run f (filter d) (p ≫= filter) "$none" (withStore σ3 w)) as [σ4 H4].
  rewrite bind_run, H4, withStore_withStore.
  unfold ret. eauto.
Qed.

(** One round trip: the query handed to the repository carries the
    pagination of the call; the page is the repository's answer. *)
Lemma getPaginated_run q options a tl w :
  repository q = RepositoryBacked ->
  responses w = a :: tl ->
  nullish (pagination options) = false ->
  exists query σ',
    getPaginated q options w =
    (a, {| store := σ'; requests := requests w ++ [query]; responses := tl |})
    /\ pagination (data query) = pagination options
    /\ table query = table q.
Proof.
  intros Hr Ha Hp. unfold getPaginated.
  destruct (newQuery_run (repository q) (table q) options (Some (data q)) w)
    as (f & σ' & H).
  rewrite bind_run, H, Hr. unfold repositoryQuery, withStore. simpl. rewrite Ha.
  eexists _, σ'. split; [reflexivity|]. simpl. split; [|done].
  unfold coalesce. by rewrite Hp.
Qed.


(** One [next()] of the iterator while it is running. *)
Lemma iteratorNext_run q options (b : Z) off page tl w :
  repository q = RepositoryBacked ->
  responses w = Ok page :: tl ->
  exists query σ',
    iteratorNext q options (Some b) {| offset := off; finished := false |} w =
    (Ok (Some (records page),
         {| offset := off + b; finished := negb (more page) |}),
     {| store := σ'; requests := requests w ++ [query]; responses := tl |})
    /\ pagination (data query) = VObj [("size", VNum b); ("offset", VNum off)].
Proof.
  intros Hr Ha. unfold iteratorNext. cbn [finished offset default from_option id].
  destruct (getPaginated_run q
              (withPagination options (VObj [("size", VNum b); ("offset", VNum off)]))
              (Ok page) tl w Hr Ha eq_refl) as (query & σ' & H & Hp & _).
  rewrite bind_run, H. eauto.
Qed.

(** Three pages, the last one reporting [more = false]: three round
    trips with batch size [b], then the loop ends. *)
Lemma collect_three_pages q options (b : Z) p1 p2 p3 tl w fuel results :
  repository q = RepositoryBacked ->
  responses w = Ok p1 :: Ok p2 :: Ok p3 :: tl ->
  more p1 = true -> more p2 = true -> more p3 = false ->
  (4 <= fuel)%nat ->
  exists σ' r1 r2 r3,
    collect fuel q options (Some b) iteratorStart results w =
    Some (Ok (results ++ records p1 ++ records p2 ++ records p3),
          {| store := σ'; requests := requests w ++ [r1; r2; r3]; responses := tl |})
    /\ pagination (data r1) = VObj [("size", VNum b); ("offset", VNum 0)]
    /\ pagination (data r2) = VObj [("size", VNum b); ("offset", VNum (0 + b))]
    /\ pagination (data r3) = VObj [("size", VNum b); ("offset", VNum (0 + b + b))].
Proof.
  intros Hr Ha H1 H2 H3 Hfuel.
  do 4 (destruct fuel as [|fuel]; [lia|]).
  unfold iteratorStart.
  destruct (iteratorNext_run q options b 0 p1 _ w Hr Ha) as (r1 & σ1 & E1 & P1).
  cbn [collect]. rewrite E1, H1. cbn [negb].
  destruct (iteratorNext_run q options b (0 + b) p2 (Ok p3 :: tl)
              {| store := σ1; requests := requests w ++ [r1];
                 responses := Ok p2 :: Ok p3 :: tl |} Hr eq_refl)
    as (r2 & σ2 & E2 & P2).
  rewrite E2, H2. cbn [negb requests].
  destruct (iteratorNext_run q options b (0 + b + b) p3 tl
              {| store := σ2; requests := (requests w ++ [r1]) ++ [r2];
                 responses := Ok p3 :: tl |} Hr eq_refl)
    as (r3 & σ3 & E3 & P3).
  rewrite E3, H3. cbn [negb requests].
  unfold iteratorNext. cbn [finished]. unfold ret.
  exists σ3, r1, r2, r3. split; [|done].
  rewrite <- !app_assoc. done.
Qed.

(** C5: when the repository answers with three pages whose [more] is
    [true], [true], [false], [getAll()] hands it exactly three queries,
    with page size [PAGINATION_MAX_SIZE] and offsets [0],
    [PAGINATION_MAX_SIZE] and twice that, resolves to the records of the
    three pages in order, and leaves every further answer unconsumed. *)
Theorem getAll_three_pages (PAGINATION_MAX_SIZE : Z) (q : Query)
    (rest : QueryOptions) (p1 p2 p3 : Page) (tl : list (Outcome Page))
    (w : World) (fuel : nat) :
  repository q = RepositoryBacked ->
  responses w = Ok p1 :: Ok p2 :: Ok p3 :: tl ->
  more p1 = true -> more p2 = true -> more p3 = false ->
  (4 <= fuel)%nat ->
  exists w' r1 r2 r3,
    getAll PAGINATION_MAX_SIZE fuel q rest None w =
      Some (Ok (records p1 ++ records p2 ++ records p3), w')
    /\ requests w' = requests w ++ [r1; r2; r3]
    /\ responses w' = tl
    /\ pagination (data r1) =
         VObj [("size", VNum PAGINATION_MAX_SIZE); ("offset", VNum 0)]
    /\ pagination (data r2) =
         VObj [("size", VNum PAGINATION_MAX_SIZE); ("offset", VNum PAGINATION_MAX_SIZE)]
    /\ pagination (data r3) =
         VObj [("size", VNum PAGINATION_MAX_SIZE);
               ("offset", VNum (PAGINATION_MAX_SIZE + PAGINATION_MAX_SIZE))]
    /\ Forall (fun r => exists n, paginationField r "size" = VNum n
                                  /\ n <= PAGINATION_MAX_SIZE) [r1; r2; r3].
Proof.
  intros Hr Ha H1 H2 H3 Hfuel. unfold getAll. cbn [default from_option id].
  destruct (collect_three_pages q rest PAGINATION_MAX_SIZE p1 p2 p3 tl w fuel []
              Hr Ha H1 H2 H3 Hfuel) as (σ' & r1 & r2 & r3 & E & P1 & P2 & P3).
  rewrite E. eexists _, r1, r2, r3. split; [reflexivity|].
  cbn [requests responses]. repeat split; try done.
  repeat constructor; unfold paginationField;
    [rewrite P1 | rewrite P2 | rewrite P3]; (eexists; split; [reflexivity | lia]).
Qed.


Lemma getAll_three_pages_witness :
  exists w',
    getAll 200 4 base0 noOptions None (withResponses fourPages world0) =
      Some (Ok [VStr "r1"; VStr "r2"; VStr "r3"; VStr "r4"; VStr "r5"], w')
    /\ List.length (requests w') = 3%nat
    /\ responses w' =
         [Ok {| records := [VStr "r6"]; cursor := "c4"; more := true |}].
Proof.
  destruct (getAll_three_pages 200 base0 noOptions _ _ _ _
              (withResponses fourPages world0) 4
              eq_refl eq_refl eq_refl eq_refl eq_refl (le_n 4))
    as (w' & r1 & r2 & r3 & H & Hreq & Hresp & _).
  exists w'. split; [exact H|]. split; [|exact Hresp].
  rewrite Hreq. reflexivity.
Defined.

(** [nextPage] and [previousPage] of a [Query] are [firstPage]: the
    request carries [{ size, offset }] and neither [after] nor [before]. *)
Lemma firstPage_run q size offset a tl w :
  repository q = RepositoryBacked ->
  responses w = a :: tl ->
  exists query σ',
    firstPage q size offset w =
    (a, {| store := σ'; requests := requests w ++ [query]; responses := tl |})
    /\ pagination (data query) = VObj [("size", size); ("offset", offset)].
Proof.
  intros Hr Ha. unfold firstPage.
  destruct (getPaginated_run q
              (withPagination noOptions (VObj [("size", size); ("offset", offset)]))
              a tl w Hr Ha eq_refl) as (query & σ' & H & Hp & _).
  eauto.
Qed.

End PaginationFacts.

Module LegacyPaginationFacts.
Import Legacy BranchFacts.

Section Pages.
Variable regexExec : string -> option (string * string).
Variables (c : BaseClient) (ws db br : string) (w w1 : World).
Hypothesis url : regexExec (default "" (databaseURL (options c))) = Some (ws, db).
Hypothesis workspace_found : String.eqb ws "" = false.
Hypothesis database_found : String.eqb db "" = false.
Hypothesis branch_resolved : getBranch c w = (Ok br, w1).

Variables (fr : bool) (ps : Props) (objs : list Val) (tl : list (Outcome Val)).
Hypothesis answer : responses w1 = Ok (VObj fr ps) :: tl.
Hypothesis answer_records : getProp ps "records" = VArr objs.

Lemma getPaginated_answered q page :
  getPaginated regexExec c q page w = answered c ws br w1 ps objs tl q page.
Proof.
  unfold getPaginated, getWorkspaceId, getDatabaseId.
  rewrite url, workspace_found, database_found.
  rewrite bind_run. unfold ret at 1. cbv beta iota.
  rewrite bind_run. unfold ret at 1. cbv beta iota.
  rewrite bind_run, branch_resolved.
  rewrite bind_run. unfold request at 1. rewrite answer. cbv beta iota zeta.
  rewrite bind_run. unfold field at 1, ret at 1. cbv beta iota.
  rewrite bind_run. unfold field at 1, ret at 1. cbv beta iota.
  unfold member, ownProps. rewrite answer_records.
  rewrite bind_run. unfold arrayElems at 1, ret at 1. cbv beta iota.
  reflexivity.
Qed.

Lemma pageCursor_world meta w' : snd (pageCursor meta w') = w'.
Proof.
  unfold pageCursor. rewrite bind_run.
  destruct meta; simpl; try done;
    match goal with |- context [member ?v "page"] => destruct (member v "page") end;
    done.
Qed.

Variables (p : Page) (n k cur : Val).
Hypothesis cursor_read : fst (pageCursor (meta p) w) = Ok cur.

Lemma pageCursor_run : pageCursor (meta p) w = (Ok cur, w).
Proof.
  pose proof (pageCursor_world (meta p) w) as H.
  destruct (pageCursor (meta p) w) as [o w']. simpl in *. by subst.
Qed.

Lemma Page_nextPage_answered :
  Page_nextPage regexExec c p n k w =
  answered c ws br w1 ps objs tl (query p)
    (Some {| size := n; offset := k; first := VUndef; last := VUndef;
             after := cur; before := VUndef |}).
Proof.
  unfold Page_nextPage. rewrite bind_run, pageCursor_run.
  apply getPaginated_answered.
Qed.

Lemma Page_previousPage_answered :
  Page_previousPage regexExec c p n k w =
  answered c ws br w1 ps objs tl (query p)
    (Some {| size := n; offset := k; first := VUndef; last := VUndef;
             after := VUndef; before := cur |}).
Proof.
  unfold Page_previousPage. rewrite bind_run, pageCursor_run.
  apply getPaginated_answered.
Qed.
End Pages.

End LegacyPaginationFacts.

Module NavigationClaims.
Import Legacy LegacyPaginationFacts.

(** C1, refuted as stated: on a page that reports [more = false],
    [nextPage] still sends a request (with [after] = the page's cursor)
    and resolves to whatever the transport answers, here a page with a
    record; and [nextPage] on a [Query], whose own cursor is ['start'],
    sends the default first page request, with no [after] at all. *)
Lemma next_page_past_the_end :
  let w := world1 [Ok answer1] in
  fst (Page_hasNextPage lastPage1 w) = Ok (VBool false)
  /\ (let r := Page_nextPage regexExec1 client1 lastPage1 VUndef VUndef w in
      requests (snd r) =
        [QueryTable "ws" "main" "users" [] None
           (Some {| size := VUndef; offset := VUndef; first := VUndef;
                    last := VUndef; after := VStr "c1"; before := VUndef |})]
      /\ fst r =
           Ok {| query := usersQuery; meta := metaOf "c2" true;
                 records := [hydrate links1 "users"
                               (VObj false [("id", (VStr "r1", true))])] |})
  /\ (let r := Query_nextPage regexExec1 client1 usersQuery VUndef VUndef w in
      requests (snd r) =
        [QueryTable "ws" "main" "users" [] None (Some (noPage VUndef VUndef))])
  /\ Schema.Query_cursor = "start"
  /\ map (fun r => Schema.paginationField r "after")
         (Schema.requests
            (snd (Schema.nextPage Schema.base0 Schema.VUndef Schema.VUndef
                    (Schema.withResponses Schema.fourPages Schema.world0))))
     = [Schema.VUndef].
Proof. vm_compute. repeat split. Qed.

(** C1, amended: [Page.nextPage] sends one request whose [after] is the
    page's own cursor and [Page.previousPage] one whose [before] is,
    whatever [more] says, and each resolves to the page built from the
    transport's answer; [nextPage] and [previousPage] of a [Query] (both
    classes) send the first page request [{ size, offset }], without
    [after] or [before]. *)
Theorem page_navigation_requests
    (regexExec : string -> option (string * string)) (c : BaseClient)
    (ws db br : string) (w w1 : World) (fr : bool) (ps : Props)
    (objs : list Val) (tl : list (Outcome Val))
    (p : Page) (n k cur : Val)
    (sq : Schema.Query) (sw : Schema.World) (sa : Outcome Schema.Page)
    (stl : list (Outcome Schema.Page)) (ssize soffset : Schema.Val) :
  regexExec (default "" (databaseURL (options c))) = Some (ws, db) ->
  String.eqb ws "" = false ->
  String.eqb db "" = false ->
  getBranch c w = (Ok br, w1) ->
  responses w1 = Ok (VObj fr ps) :: tl ->
  getProp ps "records" = VArr objs ->
  fst (pageCursor (meta p) w) = Ok cur ->
  Schema.repository sq = Schema.RepositoryBacked ->
  Schema.responses sw = sa :: stl ->
  Page_nextPage regexExec c p n k w =
    answered c ws br w1 ps objs tl (query p)
      (Some {| size := n; offset := k; first := VUndef; last := VUndef;
               after := cur; before := VUndef |})
  /\ Page_previousPage regexExec c p n k w =
       answered c ws br w1 ps objs tl (query p)
         (Some {| size := n; offset := k; first := VUndef; last := VUndef;
                  after := VUndef; before := cur |})
  /\ Query_nextPage regexExec c (query p) n k w =
       answered c ws br w1 ps objs tl (query p) (Some (noPage n k))
  /\ Query_previousPage regexExec c (query p) n k w =
       answered c ws br w1 ps objs tl (query p) (Some (noPage n k))
  /\ (exists request σ',
        Schema.nextPage sq ssize soffset sw =
          (sa, {| Schema.store := σ';
                  Schema.requests := Schema.requests sw ++ [request];
                  Schema.responses := stl |})
        /\ Schema.pagination (Schema.data request) =
             Schema.VObj [("size", ssize); ("offset", soffset)])
  /\ (exists request σ',
        Schema.previousPage sq ssize soffset sw =
          (sa, {| Schema.store := σ';
                  Schema.requests := Schema.requests sw ++ [request];
                  Schema.responses := stl |})
        /\ Schema.pagination (Schema.data request) =
             Schema.VObj [("size", ssize); ("offset", soffset)]).
Proof.
  intros Hurl Hws Hdb Hbr Hans Hrec Hcur Hrepo Hresp.
  split; [by eapply Page_nextPage_answered|].
  split; [by eapply Page_previousPage_answered|].
  split; [by eapply getPaginated_answered|].
  split; [by eapply getPaginated_answered|].
  split; by apply PaginationFacts.firstPage_run.
Qed.

Lemma page_navigation_requests_witness :
  Page_nextPage regexExec1 client1 lastPage1 (VNum 20) VUndef
    (world1 [Ok answer1]) =
  answered client1 "ws" "main" (afterResolution [2%nat] (BString "main") (world1 [Ok answer1]))
    (ownProps answer1) [VObj false [("id", (VStr "r1", true))]] []
    usersQuery
    (Some {| size := VNum 20; offset := VUndef; first := VUndef; last := VUndef;
             after := VStr "c1"; before := VUndef |}).
Proof.
  exact (proj1 (page_navigation_requests regexExec1 client1 "ws" "app" "main"
                  (world1 [Ok answer1])
                  (afterResolution [2%nat] (BString "main") (world1 [Ok answer1]))
                  false (ownProps answer1) [VObj false [("id", (VStr "r1", true))]] []
                  lastPage1 (VNum 20) VUndef (VStr "c1")
                  Schema.base0 (Schema.withResponses Schema.fourPages Schema.world0)
                  _ _ Schema.VUndef Schema.VUndef
                  eq_refl eq_refl eq_refl eq_refl eq_refl eq_refl eq_refl
                  eq_refl eq_refl)).
Defined.

End NavigationClaims.
